(** * Thorium omnibar: the filter query language

    A shallow embedding of the omnibar parser of the Thorium UI
    ([omnibar/types.ts], [omnibar/use_omnibar_parser.ts]), of the filter
    handling of the omnibar component ([omnibar/omnibar.tsx]: removal of
    filters, keyboard selection) and of the image filter of the images page,
    with the properties of the query language proved over them.

    JavaScript strings are modelled as lists of characters ([jsstring]).
    A character is a code unit below 256 (Latin-1); the character classes
    [\w] and [\s] and [toLowerCase] are the JavaScript ones on that range. *)

From Stdlib Require Import Ascii String Bool Arith ZArith Lia List Permutation.
Import ListNotations.

Set Implicit Arguments.

(** ** Characters and strings *)

Definition jsstring := list ascii.

(** A string literal of the source. *)
Definition lit (s : string) : jsstring := list_ascii_of_string s.
Arguments lit : simpl never.

Definition dquote : ascii := ascii_of_nat 34.
Definition space : ascii := ascii_of_nat 32.
Definition colon : ascii := ascii_of_nat 58.
Definition dash : ascii := ascii_of_nat 45.

Definition between (lo hi n : nat) : bool := (lo <=? n) && (n <=? hi).

(** [\w] is [[A-Za-z0-9_]]. *)
Definition is_word (c : ascii) : bool :=
  let n := nat_of_ascii c in
  between 48 57 n || between 65 90 n || between 97 122 n || (n =? 95).

(** [\s]: tab, line feed, vertical tab, form feed, carriage return, space
    and the no-break space; [trim] strips the same characters. *)
Definition is_space (c : ascii) : bool :=
  let n := nat_of_ascii c in
  between 9 13 n || (n =? 32) || (n =? 160).

Definition lower_char (c : ascii) : ascii :=
  let n := nat_of_ascii c in
  if between 65 90 n then ascii_of_nat (n + 32)
  else if between 192 222 n && negb (n =? 215) then ascii_of_nat (n + 32)
  else c.

Definition toLowerCase (s : jsstring) : jsstring := map lower_char s.

Fixpoint str_eqb (a b : jsstring) : bool :=
  match a, b with
  | [], [] => true
  | x :: a', y :: b' => Ascii.eqb x y && str_eqb a' b'
  | _, _ => false
  end.

(** Truthiness of a string: non-empty. *)
Definition truthy (s : jsstring) : bool :=
  match s with [] => false | _ :: _ => true end.

Fixpoint startsWith (s p : jsstring) : bool :=
  match p, s with
  | [], _ => true
  | x :: p', y :: s' => Ascii.eqb x y && startsWith s' p'
  | _ :: _, [] => false
  end.

Definition endsWith (s p : jsstring) : bool := startsWith (rev s) (rev p).

(** [s.includes(p)]: [p] occurs in [s] as a substring. *)
Fixpoint includes (s p : jsstring) : bool :=
  startsWith s p || match s with [] => false | _ :: s' => includes s' p end.

(** [s.indexOf(c)] for a one-character needle; -1 when absent. *)
Fixpoint indexOf (s : jsstring) (c : ascii) : Z :=
  match s with
  | [] => (-1)%Z
  | x :: s' =>
      if Ascii.eqb x c then 0%Z
      else let i := indexOf s' c in if (i <? 0)%Z then (-1)%Z else (i + 1)%Z
  end.

(** [s.lastIndexOf(c)]; -1 when absent. *)
Fixpoint lastIndexOf (s : jsstring) (c : ascii) : Z :=
  match s with
  | [] => (-1)%Z
  | x :: s' =>
      let i := lastIndexOf s' c in
      if (0 <=? i)%Z then (i + 1)%Z
      else if Ascii.eqb x c then 0%Z else (-1)%Z
  end.

(** Index arguments of [slice]: negative counts from the end, everything is
    clamped to the length. *)
Definition clamp_index (len : nat) (i : Z) : nat :=
  if (i <? 0)%Z then Z.to_nat (Z.max (Z.of_nat len + i) 0)
  else Nat.min (Z.to_nat i) len.

Definition slice {A} (l : list A) (from to : Z) : list A :=
  let a := clamp_index (length l) from in
  let b := clamp_index (length l) to in
  firstn (b - a) (skipn a l).

Definition slice_from {A} (l : list A) (from : Z) : list A :=
  skipn (clamp_index (length l) from) l.

Fixpoint trimStart (s : jsstring) : jsstring :=
  match s with
  | c :: s' => if is_space c then trimStart s' else s
  | [] => []
  end.

Fixpoint trimEnd (s : jsstring) : jsstring :=
  match s with
  | [] => []
  | c :: s' =>
      match trimEnd s' with
      | [] => if is_space c then [] else [c]
      | t => c :: t
      end
  end.

Definition trim (s : jsstring) : jsstring := trimEnd (trimStart s).

(** [s.replace(/\s+/g, ' ')]: [in_run] tells that the previous character
    belonged to the whitespace run already replaced. *)
Fixpoint collapse_ws (in_run : bool) (s : jsstring) : jsstring :=
  match s with
  | [] => []
  | c :: s' =>
      if is_space c
      then (if in_run then collapse_ws true s' else space :: collapse_ws true s')
      else c :: collapse_ws false s'
  end.

(** [parts.join(sep)]. *)
Fixpoint join (sep : jsstring) (parts : list jsstring) : jsstring :=
  match parts with
  | [] => []
  | p :: ps =>
      match ps with
      | [] => p
      | _ :: _ => p ++ sep ++ join sep ps
      end
  end.

(** The longest prefix of [s] whose characters satisfy [p], and the rest:
    what a greedy [[class]*] consumes. *)
Fixpoint span (p : ascii -> bool) (s : jsstring) : jsstring * jsstring :=
  match s with
  | c :: s' =>
      if p c then let (a, b) := span p s' in (c :: a, b) else ([], s)
  | [] => ([], [])
  end.

(** ** types.ts *)

Record FilterState := mkFilterState {
  search : jsstring;
  groups : list jsstring;
  excludeGroups : list jsstring;
  scalers : list jsstring;
  excludeScalers : list jsstring;
  generator : option bool;
  creators : list jsstring;
  excludeCreators : list jsstring;
  used : option bool;
  pipelines : list jsstring;
  excludePipelines : list jsstring
}.

Record ParsedToken := mkToken {
  key : jsstring;
  value : jsstring;
  negated : bool;
  raw : jsstring
}.

Inductive SuggestionType := KeySuggestion | ValueSuggestion.

Record Suggestion := mkSuggestion {
  sg_type : SuggestionType;
  sg_key : option jsstring;
  sg_value : jsstring;
  sg_display : jsstring
}.

Definition FILTER_KEYS : list jsstring :=
  [lit "group"; lit "scaler"; lit "creator"; lit "pipeline"; lit "is"].

Definition DEFAULT_FILTER_STATE : FilterState :=
  {| search := []; groups := []; excludeGroups := [];
     scalers := []; excludeScalers := []; generator := None;
     creators := []; excludeCreators := []; used := None;
     pipelines := []; excludePipelines := [] |}.

(** Field updates of the object spread [{ ...filters, field: v }]. *)
Definition set_search (f : FilterState) (v : jsstring) : FilterState :=
  mkFilterState v (groups f) (excludeGroups f) (scalers f) (excludeScalers f)
    (generator f) (creators f) (excludeCreators f) (used f) (pipelines f)
    (excludePipelines f).
Definition set_groups (f : FilterState) (v : list jsstring) : FilterState :=
  mkFilterState (search f) v (excludeGroups f) (scalers f) (excludeScalers f)
    (generator f) (creators f) (excludeCreators f) (used f) (pipelines f)
    (excludePipelines f).
Definition set_excludeGroups (f : FilterState) (v : list jsstring) : FilterState :=
  mkFilterState (search f) (groups f) v (scalers f) (excludeScalers f)
    (generator f) (creators f) (excludeCreators f) (used f) (pipelines f)
    (excludePipelines f).
Definition set_scalers (f : FilterState) (v : list jsstring) : FilterState :=
  mkFilterState (search f) (groups f) (excludeGroups f) v (excludeScalers f)
    (generator f) (creators f) (excludeCreators f) (used f) (pipelines f)
    (excludePipelines f).
Definition set_excludeScalers (f : FilterState) (v : list jsstring) : FilterState :=
  mkFilterState (search f) (groups f) (excludeGroups f) (scalers f) v
    (generator f) (creators f) (excludeCreators f) (used f) (pipelines f)
    (excludePipelines f).
Definition set_generator (f : FilterState) (v : option bool) : FilterState :=
  mkFilterState (search f) (groups f) (excludeGroups f) (scalers f)
    (excludeScalers f) v (creators f) (excludeCreators f) (used f)
    (pipelines f) (excludePipelines f).
Definition set_creators (f : FilterState) (v : list jsstring) : FilterState :=
  mkFilterState (search f) (groups f) (excludeGroups f) (scalers f)
    (excludeScalers f) (generator f) v (excludeCreators f) (used f)
    (pipelines f) (excludePipelines f).
Definition set_excludeCreators (f : FilterState) (v : list jsstring) : FilterState :=
  mkFilterState (search f) (groups f) (excludeGroups f) (scalers f)
    (excludeScalers f) (generator f) (creators f) v (used f) (pipelines f)
    (excludePipelines f).
Definition set_used (f : FilterState) (v : option bool) : FilterState :=
  mkFilterState (search f) (groups f) (excludeGroups f) (scalers f)
    (excludeScalers f) (generator f) (creators f) (excludeCreators f) v
    (pipelines f) (excludePipelines f).
Definition set_pipelines (f : FilterState) (v : list jsstring) : FilterState :=
  mkFilterState (search f) (groups f) (excludeGroups f) (scalers f)
    (excludeScalers f) (generator f) (creators f) (excludeCreators f) (used f)
    v (excludePipelines f).
Definition set_excludePipelines (f : FilterState) (v : list jsstring) : FilterState :=
  mkFilterState (search f) (groups f) (excludeGroups f) (scalers f)
    (excludeScalers f) (generator f) (creators f) (excludeCreators f) (used f)
    (pipelines f) v.

(** ** use_omnibar_parser.ts: the tokenizer *)

(** The capture groups of one match of [TOKEN_PATTERN], which is
    [/(-?)(\w+):(Q[^Q]*Q|[^\s]+)/g] with Q standing for the double quote. *)
Record RegexMatch := mkMatch {
  g1 : jsstring;
  g2 : jsstring;
  g3 : jsstring
}.

(** [match[0]]. *)
Definition matched (m : RegexMatch) : jsstring :=
  g1 m ++ g2 m ++ colon :: g3 m.

(** First alternative of the value, a quoted string: the class excludes the
    quote, so the body runs to the next quote, which must exist. *)
Definition match_quoted (s : jsstring) : option (jsstring * jsstring) :=
  match s with
  | c :: s' =>
      if Ascii.eqb c dquote then
        let (body, rest) := span (fun x => negb (Ascii.eqb x dquote)) s' in
        match rest with
        | _ :: rest' => Some (dquote :: body ++ [dquote], rest')
        | [] => None
        end
      else None
  | [] => None
  end.

(** Second alternative: a non-empty run of non-whitespace. *)
Definition match_nonspace (s : jsstring) : option (jsstring * jsstring) :=
  let (v, rest) := span (fun x => negb (is_space x)) s in
  match v with
  | [] => None
  | _ :: _ => Some (v, rest)
  end.

(** The alternation is ordered: the quoted form wins when it matches. *)
Definition match_value (s : jsstring) : option (jsstring * jsstring) :=
  match match_quoted s with
  | Some r => Some r
  | None => match_nonspace s
  end.

(** One attempt of the pattern at the head of [s]; the result carries the
    text after the match.  The quantifiers are greedy and each is followed
    by a character outside its class (the dash and the colon are not word
    characters), so giving characters back never turns a failure into a
    match and the greedy choice is the only one to try. *)
Definition match_at (s : jsstring) : option (RegexMatch * jsstring) :=
  let (neg, s1) :=
    match s with
    | c :: s' => if Ascii.eqb c dash then ([dash], s') else ([], s)
    | [] => ([], [])
    end in
  let (k, s2) := span is_word s1 in
  match k, s2 with
  | _ :: _, c :: s3 =>
      if Ascii.eqb c colon then
        match match_value s3 with
        | Some (v, rest) => Some (mkMatch neg k v, rest)
        | None => None
        end
      else None
  | _, _ => None
  end.

(** [TOKEN_PATTERN.exec] from the current [lastIndex]: [s] is the input from
    [lastIndex] on; the result is the text skipped before the match, the
    match, and the input from the new [lastIndex] on. *)
Fixpoint regex_exec (s : jsstring) : option (jsstring * RegexMatch * jsstring) :=
  match match_at s with
  | Some (m, rest) => Some ([], m, rest)
  | None =>
      match s with
      | [] => None
      | c :: s' =>
          match regex_exec s' with
          | Some (pre, m, rest) => Some (c :: pre, m, rest)
          | None => None
          end
      end
  end.

(** The body of the [while] loop of [parseInput]. *)
Definition token_of_match (m : RegexMatch) : ParsedToken :=
  let negated := str_eqb (g1 m) [dash] in
  let key := toLowerCase (g2 m) in
  let value := g3 m in
  let value :=
    if startsWith value [dquote] && endsWith value [dquote]
    then slice value 1 (-1)
    else value in
  mkToken key value negated (matched m).

(** The [while ((match = TOKEN_PATTERN.exec(input)) !== null)] loop;
    [None] when [fuel] iterations did not exhaust the matches. *)
Fixpoint exec_loop (fuel : nat) (s : jsstring) : option (list ParsedToken) :=
  match regex_exec s with
  | None => Some []
  | Some (_, m, rest) =>
      match fuel with
      | 0 => None
      | S fuel' =>
          match exec_loop fuel' rest with
          | Some tokens => Some (token_of_match m :: tokens)
          | None => None
          end
      end
  end.

Definition parseInput (input : jsstring) : option (list ParsedToken) :=
  exec_loop (length input) input.

(** [input.replace(TOKEN_PATTERN, '')]: every match is dropped, the text
    between matches is kept. *)
Fixpoint replace_loop (fuel : nat) (s : jsstring) : option jsstring :=
  match regex_exec s with
  | None => Some s
  | Some (pre, _, rest) =>
      match fuel with
      | 0 => None
      | S fuel' =>
          match replace_loop fuel' rest with
          | Some t => Some (pre ++ t)
          | None => None
          end
      end
  end.

Definition remove_tokens (input : jsstring) : option jsstring :=
  replace_loop (length input) input.

Definition normalize_text (s : jsstring) : jsstring :=
  collapse_ws false (trim s).

Definition extractFreeText (input : jsstring) : option jsstring :=
  option_map normalize_text (remove_tokens input).

(** ** use_omnibar_parser.ts: the filter-state mapper *)

(** [arr.push(x)], and [[...arr, x]]. *)
Definition push {A} (arr : list A) (x : A) : list A := arr ++ [x].

(** [arr.includes(x)] on an array of strings. *)
Definition array_includes (arr : list jsstring) (x : jsstring) : bool :=
  existsb (str_eqb x) arr.

(** One iteration of the [for (const token of tokens)] loop of
    [tokensToFilters]: the [switch] on the key, then the [is:] keywords. *)
Definition applyToken (currentUser : jsstring) (filters : FilterState)
    (token : ParsedToken) : FilterState :=
  let filters :=
    if str_eqb (key token) (lit "group") then
      if negated token
      then set_excludeGroups filters (push (excludeGroups filters) (value token))
      else set_groups filters (push (groups filters) (value token))
    else if str_eqb (key token) (lit "scaler") then
      if negated token
      then set_excludeScalers filters (push (excludeScalers filters) (value token))
      else set_scalers filters (push (scalers filters) (value token))
    else if str_eqb (key token) (lit "is") then
      if str_eqb (toLowerCase (value token)) (lit "generator")
      then set_generator filters (Some (negb (negated token)))
      else filters
    else if str_eqb (key token) (lit "generator") then
      let isYes :=
        array_includes [lit "yes"; lit "true"; lit "1"] (toLowerCase (value token)) in
      let isNo :=
        array_includes [lit "no"; lit "false"; lit "0"] (toLowerCase (value token)) in
      if isYes then set_generator filters (Some (negb (negated token)))
      else if isNo then set_generator filters (Some (negated token))
      else filters
    else if str_eqb (key token) (lit "creator") then
      let creatorValue :=
        if str_eqb (value token) (lit "@me") && truthy currentUser
        then currentUser else value token in
      if negated token
      then set_excludeCreators filters (push (excludeCreators filters) creatorValue)
      else set_creators filters (push (creators filters) creatorValue)
    else if str_eqb (key token) (lit "pipeline") then
      if negated token
      then set_excludePipelines filters (push (excludePipelines filters) (value token))
      else set_pipelines filters (push (pipelines filters) (value token))
    else filters in
  if str_eqb (key token) (lit "is") then
    let val := toLowerCase (value token) in
    if str_eqb val (lit "used") then set_used filters (Some (negb (negated token)))
    else if str_eqb val (lit "orphan") then set_used filters (Some (negated token))
    else filters
  else filters.

Definition tokensToFilters (tokens : list ParsedToken) (freeText : jsstring)
    (currentUser : jsstring) : FilterState :=
  fold_left (applyToken currentUser) tokens
    (set_search DEFAULT_FILTER_STATE freeText).

(** The conditional of the serializer: a value that includes a space is
    put between double quotes. *)
Definition quote_if_space (v : jsstring) : jsstring :=
  if includes v [space] then dquote :: v ++ [dquote] else v.

Definition filtersToQueryString (filters : FilterState) : jsstring :=
  let parts : list jsstring := [] in
  let parts :=
    fold_left (fun parts group => push parts (lit "group:" ++ quote_if_space group))
      (groups filters) parts in
  let parts :=
    fold_left (fun parts group => push parts (lit "-group:" ++ quote_if_space group))
      (excludeGroups filters) parts in
  let parts :=
    fold_left (fun parts scaler => push parts (lit "scaler:" ++ scaler))
      (scalers filters) parts in
  let parts :=
    fold_left (fun parts scaler => push parts (lit "-scaler:" ++ scaler))
      (excludeScalers filters) parts in
  let parts :=
    match generator filters with
    | Some true => push parts (lit "is:generator")
    | Some false => push parts (lit "-is:generator")
    | None => parts
    end in
  let parts :=
    fold_left (fun parts creator => push parts (lit "creator:" ++ quote_if_space creator))
      (creators filters) parts in
  let parts :=
    fold_left (fun parts creator => push parts (lit "-creator:" ++ quote_if_space creator))
      (excludeCreators filters) parts in
  let parts :=
    match used filters with
    | Some true => push parts (lit "is:used")
    | Some false => push parts (lit "is:orphan")
    | None => parts
    end in
  let parts :=
    fold_left (fun parts pipeline => push parts (lit "pipeline:" ++ quote_if_space pipeline))
      (pipelines filters) parts in
  let parts :=
    fold_left (fun parts pipeline => push parts (lit "-pipeline:" ++ quote_if_space pipeline))
      (excludePipelines filters) parts in
  let parts := if truthy (search filters) then push parts (search filters) else parts in
  join [space] parts.

Definition parseQueryString (queryString : jsstring) (currentUser : jsstring)
    : option FilterState :=
  match parseInput queryString, extractFreeText queryString with
  | Some tokens, Some freeText => Some (tokensToFilters tokens freeText currentUser)
  | _, _ => None
  end.

(** ** use_omnibar_parser.ts: the suggestion engine *)

Record TokenContext := mkContext {
  partial : jsstring;
  isKey : bool;
  ctx_key : option jsstring;
  isNegated : bool
}.

Definition getCurrentToken (input : jsstring) (cursorPos : Z) : TokenContext :=
  let textBeforeCursor := slice input 0 cursorPos in
  let lastSpaceIndex := lastIndexOf textBeforeCursor space in
  let currentWord := slice_from textBeforeCursor (lastSpaceIndex + 1) in
  let isNegated := startsWith currentWord [dash] in
  let wordWithoutNegation :=
    if isNegated then slice_from currentWord 1 else currentWord in
  let colonIndex := indexOf wordWithoutNegation colon in
  if negb (colonIndex =? -1)%Z then
    let key := toLowerCase (slice wordWithoutNegation 0 colonIndex) in
    let valueStart := slice_from wordWithoutNegation (colonIndex + 1) in
    mkContext valueStart false (Some key) isNegated
  else mkContext wordWithoutNegation true None isNegated.

(** [${context.isNegated ? '-' : ''}]. *)
Definition neg_prefix (isNegated : bool) : jsstring :=
  if isNegated then [dash] else [].

(** [s.replace(/^Q/, '')], Q the double quote. *)
Definition strip_leading_quote (s : jsstring) : jsstring :=
  match s with
  | c :: s' => if Ascii.eqb c dquote then s' else s
  | [] => []
  end.

Section UseOmnibarParser.

Variables availableGroups availableScalers : list jsstring.
Variables availableCreators availablePipelines : list jsstring.
Variable currentUser : jsstring.

Definition key_suggestions (context : TokenContext) : list Suggestion :=
  let partialLower := toLowerCase (partial context) in
  fold_left
    (fun suggestions key =>
       if startsWith key partialLower || str_eqb partialLower []
       then push suggestions
              (mkSuggestion KeySuggestion None
                 (neg_prefix (isNegated context) ++ key ++ [colon])
                 (neg_prefix (isNegated context) ++ key ++ [colon]))
       else suggestions)
    FILTER_KEYS [].

(** The loops over a list of known values; [quoting] tells whether the
    branch quotes a value that contains a space. *)
Definition known_value_suggestions (context : TokenContext) (k : jsstring)
    (quoting : bool) (known : list jsstring) (suggestions : list Suggestion)
    : list Suggestion :=
  let partialLower := strip_leading_quote (toLowerCase (partial context)) in
  fold_left
    (fun suggestions v =>
       if includes (toLowerCase v) partialLower || str_eqb partialLower []
       then push suggestions
              (mkSuggestion ValueSuggestion (Some k)
                 (neg_prefix (isNegated context) ++ k ++ colon ::
                    (if quoting then quote_if_space v else v))
                 v)
       else suggestions)
    known suggestions.

(** The loops over a fixed candidate set ([is:], [generator:]). *)
Definition fixed_value_suggestions (context : TokenContext) (k : jsstring)
    (options : list jsstring) : list Suggestion :=
  let partialLower := strip_leading_quote (toLowerCase (partial context)) in
  fold_left
    (fun suggestions opt =>
       if includes opt partialLower || str_eqb partialLower []
       then push suggestions
              (mkSuggestion ValueSuggestion (Some k)
                 (neg_prefix (isNegated context) ++ k ++ colon :: opt) opt)
       else suggestions)
    options [].

Definition value_suggestions (context : TokenContext) (k : jsstring)
    : list Suggestion :=
  let partialLower := strip_leading_quote (toLowerCase (partial context)) in
  if str_eqb k (lit "group") then
    known_value_suggestions context (lit "group") true availableGroups []
  else if str_eqb k (lit "scaler") then
    known_value_suggestions context (lit "scaler") false availableScalers []
  else if str_eqb k (lit "is") then
    fixed_value_suggestions context (lit "is")
      [lit "generator"; lit "used"; lit "orphan"]
  else if str_eqb k (lit "creator") then
    let suggestions :=
      if truthy currentUser
         && (includes (lit "@me") partialLower || str_eqb partialLower [])
      then [mkSuggestion ValueSuggestion (Some (lit "creator"))
              (neg_prefix (isNegated context) ++ lit "creator:@me")
              (lit "@me (" ++ currentUser ++ lit ")")]
      else [] in
    known_value_suggestions context (lit "creator") true availableCreators
      suggestions
  else if str_eqb k (lit "pipeline") then
    known_value_suggestions context (lit "pipeline") true availablePipelines []
  else if str_eqb k (lit "generator") then
    fixed_value_suggestions context (lit "generator") [lit "yes"; lit "no"]
  else [].

Definition getSuggestions (input : jsstring) (cursorPos : Z) : list Suggestion :=
  let context := getCurrentToken input cursorPos in
  let suggestions :=
    if isKey context then key_suggestions context
    else match ctx_key context with
         | Some k => if truthy k then value_suggestions context k else []
         | None => []
         end in
  slice suggestions 0 10.

Definition applySuggestion (input : jsstring) (cursorPos : Z)
    (suggestion : Suggestion) : jsstring :=
  let textBeforeCursor := slice input 0 cursorPos in
  let textAfterCursor := slice_from input cursorPos in
  let lastSpaceIndex := lastIndexOf textBeforeCursor space in
  let beforeWord := slice textBeforeCursor 0 (lastSpaceIndex + 1) in
  beforeWord ++ sg_value suggestion
    ++ (match sg_type suggestion with
        | ValueSuggestion => [space]
        | KeySuggestion => []
        end)
    ++ trimStart textAfterCursor.

End UseOmnibarParser.

(** ** omnibar.tsx: removing the last filter *)

Definition nonempty {A} (l : list A) : bool :=
  match l with [] => false | _ :: _ => true end.

Definition is_set (t : option bool) : bool :=
  match t with Some _ => true | None => false end.

Definition hasActiveFilters (filters : FilterState) : bool :=
  truthy (search filters)
  || nonempty (groups filters)
  || nonempty (excludeGroups filters)
  || nonempty (scalers filters)
  || nonempty (excludeScalers filters)
  || is_set (generator filters)
  || nonempty (creators filters)
  || nonempty (excludeCreators filters)
  || is_set (used filters)
  || nonempty (pipelines filters)
  || nonempty (excludePipelines filters).

Definition removeLastFilter (filters : FilterState) : FilterState :=
  if truthy (search filters) then set_search filters []
  else if is_set (used filters) then set_used filters None
  else if is_set (generator filters) then set_generator filters None
  else if nonempty (excludePipelines filters)
  then set_excludePipelines filters (slice (excludePipelines filters) 0 (-1))
  else if nonempty (pipelines filters)
  then set_pipelines filters (slice (pipelines filters) 0 (-1))
  else if nonempty (excludeCreators filters)
  then set_excludeCreators filters (slice (excludeCreators filters) 0 (-1))
  else if nonempty (creators filters)
  then set_creators filters (slice (creators filters) 0 (-1))
  else if nonempty (excludeScalers filters)
  then set_excludeScalers filters (slice (excludeScalers filters) 0 (-1))
  else if nonempty (scalers filters)
  then set_scalers filters (slice (scalers filters) 0 (-1))
  else if nonempty (excludeGroups filters)
  then set_excludeGroups filters (slice (excludeGroups filters) 0 (-1))
  else if nonempty (groups filters)
  then set_groups filters (slice (groups filters) 0 (-1))
  else filters.

(** The [Backspace] case of [handleKeyDown]: the filters handed to
    [onChange], or [None] when the key press is left to the input box. *)
Definition handleBackspace (inputValue : jsstring) (filters : FilterState)
    : option FilterState :=
  if str_eqb inputValue [] && hasActiveFilters filters
  then Some (removeLastFilter filters)
  else None.

(** ** omnibar.tsx: removal of one filter, keyboard selection *)

Inductive BadgeType :=
| BGroup | BScaler | BGenerator | BSearch | BCreator | BUsed | BPipeline.

(** [arr.filter((x) => x !== value)]. *)
Definition without (value : jsstring) (arr : list jsstring) : list jsstring :=
  filter (fun x => negb (str_eqb x value)) arr.

(** [removeFilter(type, value, negated)]; an absent [negated] is falsy.
    The result is the state handed to [onChange]. *)
Definition removeFilter (filters : FilterState) (type : BadgeType)
    (value : jsstring) (negated : bool) : FilterState :=
  match type with
  | BGroup =>
      if negated
      then set_excludeGroups filters (without value (excludeGroups filters))
      else set_groups filters (without value (groups filters))
  | BScaler =>
      if negated
      then set_excludeScalers filters (without value (excludeScalers filters))
      else set_scalers filters (without value (scalers filters))
  | BGenerator => set_generator filters None
  | BCreator =>
      if negated
      then set_excludeCreators filters (without value (excludeCreators filters))
      else set_creators filters (without value (creators filters))
  | BUsed => set_used filters None
  | BPipeline =>
      if negated
      then set_excludePipelines filters (without value (excludePipelines filters))
      else set_pipelines filters (without value (pipelines filters))
  | BSearch => set_search filters []
  end.



(** ** The images page: the query string in the URL *)

(** [handleFilterSubmit]: the [q] parameter the URL gets, none for an
    empty query string. *)
Definition handleFilterSubmit (queryString : jsstring) : option jsstring :=
  if truthy queryString then Some queryString else None.

(** The effect that initializes the filters from the URL: with a non-empty
    [q] the filters become its parse, otherwise they stay as they are. *)
Definition filtersFromUrl (q : option jsstring) (currentUser : jsstring)
    (filters : FilterState) : option FilterState :=
  match q with
  | Some text => if truthy text then parseQueryString text currentUser else Some filters
  | None => Some filters
  end.

(** ** The images page: filtering by the filter state *)

(** The fields of an image the filter reads; [name], [description] and
    [used_by] may be absent. *)
Record Image := mkImage {
  img_name : option jsstring;
  img_description : option jsstring;
  img_group : jsstring;
  img_scaler : jsstring;
  img_generator : bool;
  img_creator : jsstring;
  img_used_by : option (list jsstring)
}.

(** [text?.toLowerCase().includes(searchLower)], falsy when absent. *)
Definition text_matches (text : option jsstring) (searchLower : jsstring) : bool :=
  match text with
  | Some t => includes (toLowerCase t) searchLower
  | None => false
  end.

(** [image.used_by || []]. *)
Definition usedByPipelines (image : Image) : list jsstring :=
  match img_used_by image with Some l => l | None => [] end.

(** The callback of [images.filter] in [filteredImages]: each test that
    fails returns [false] at once. *)
Definition imageMatches (filters : FilterState) (image : Image) : bool :=
  if truthy (search filters)
     && negb (text_matches (img_name image) (toLowerCase (search filters)))
     && negb (text_matches (img_description image) (toLowerCase (search filters)))
  then false
  else if nonempty (groups filters)
          && negb (array_includes (groups filters) (img_group image))
  then false
  else if nonempty (excludeGroups filters)
          && array_includes (excludeGroups filters) (img_group image)
  then false
  else if nonempty (scalers filters)
          && negb (array_includes (scalers filters) (img_scaler image))
  then false
  else if nonempty (excludeScalers filters)
          && array_includes (excludeScalers filters) (img_scaler image)
  then false
  else if match generator filters with
          | Some g => negb (Bool.eqb (img_generator image) g)
          | None => false
          end
  then false
  else if nonempty (creators filters)
          && negb (array_includes (creators filters) (img_creator image))
  then false
  else if nonempty (excludeCreators filters)
          && array_includes (excludeCreators filters) (img_creator image)
  then false
  else if match used filters with
          | Some u =>
              let isUsed := nonempty (usedByPipelines image) in
              (u && negb isUsed) || (negb u && isUsed)
          | None => false
          end
  then false
  else if nonempty (pipelines filters)
          && negb (existsb (fun p => array_includes (usedByPipelines image) p)
                     (pipelines filters))
  then false
  else if nonempty (excludePipelines filters)
          && existsb (fun p => array_includes (usedByPipelines image) p)
               (excludePipelines filters)
  then false
  else true.

Definition filteredImages (filters : FilterState) (images : list Image) : list Image :=
  filter (imageMatches filters) images.

(** ** Notions used by the statements *)

(** Equality of filter states as the specification compares them: equal
    scalar fields, sequences equal up to order. *)
Definition fs_equiv (f g : FilterState) : Prop :=
  search f = search g
  /\ Permutation (groups f) (groups g)
  /\ Permutation (excludeGroups f) (excludeGroups g)
  /\ Permutation (scalers f) (scalers g)
  /\ Permutation (excludeScalers f) (excludeScalers g)
  /\ generator f = generator g
  /\ Permutation (creators f) (creators g)
  /\ Permutation (excludeCreators f) (excludeCreators g)
  /\ used f = used g
  /\ Permutation (pipelines f) (pipelines g)
  /\ Permutation (excludePipelines f) (excludePipelines g).

(** All the matches of [TOKEN_PATTERN] in an input, in order, and the text
    left between and after them: what both the [exec] loop and the global
    [replace] walk through. *)
Inductive scans : jsstring -> list RegexMatch -> jsstring -> Prop :=
| scans_end : forall s, regex_exec s = None -> scans s [] s
| scans_step : forall s pre m rest ms txt,
    regex_exec s = Some (pre, m, rest) ->
    scans rest ms txt ->
    scans s (m :: ms) (pre ++ txt).

(** The tokens of the serializer, by kind. *)
Definition generator_part (g : option bool) : list jsstring :=
  match g with
  | Some true => [lit "is:generator"]
  | Some false => [lit "-is:generator"]
  | None => []
  end.

Definition used_part (u : option bool) : list jsstring :=
  match u with
  | Some true => [lit "is:used"]
  | Some false => [lit "is:orphan"]
  | None => []
  end.

Definition search_part (s : jsstring) : list jsstring :=
  match s with [] => [] | _ :: _ => [s] end.

(** What one token dictates for the [generator] tri-state, if anything:
    [is:generator], [generator:yes|true|1] and [generator:no|false|0],
    values compared case-insensitively, negation inverting. *)
Definition generator_effect (t : ParsedToken) : option bool :=
  let v := toLowerCase (value t) in
  if str_eqb (key t) (lit "is") then
    if str_eqb v (lit "generator") then Some (negb (negated t)) else None
  else if str_eqb (key t) (lit "generator") then
    if str_eqb v (lit "yes") || str_eqb v (lit "true") || str_eqb v (lit "1")
    then Some (negb (negated t))
    else if str_eqb v (lit "no") || str_eqb v (lit "false") || str_eqb v (lit "0")
    then Some (negated t)
    else None
  else None.

(** What one token dictates for the [used] tri-state: [is:used] and
    [is:orphan], negation inverting. *)
Definition used_effect (t : ParsedToken) : option bool :=
  let v := toLowerCase (value t) in
  if str_eqb (key t) (lit "is") then
    if str_eqb v (lit "used") then Some (negb (negated t))
    else if str_eqb v (lit "orphan") then Some (negated t)
    else None
  else None.

(** The value dictated by the last token of the list that has an effect. *)
Definition last_effect (effect : ParsedToken -> option bool)
    (tokens : list ParsedToken) : option bool :=
  match find (fun t => is_set (effect t)) (rev tokens) with
  | Some t => effect t
  | None => None
  end.

(** The fields of a filter state, in the precedence order of the removal of
    the last filter. *)
Inductive Field :=
| FSearch | FUsed | FGenerator
| FExcludePipelines | FPipelines
| FExcludeCreators | FCreators
| FExcludeScalers | FScalers
| FExcludeGroups | FGroups.

(** Within one dimension: the exclude or the include sequence, whichever is
    non-empty. *)
Definition pair_target (excl incl : list jsstring) (fe fi : Field) : option Field :=
  if nonempty excl then Some fe
  else if nonempty incl then Some fi
  else None.

Definition or_else {A} (a b : option A) : option A :=
  match a with Some _ => a | None => b end.

(** The field the precedence designates: search, then [used], then
    [generator], then the dimensions pipelines, creators, scalers, groups. *)
Definition removal_target (f : FilterState) : option Field :=
  if truthy (search f) then Some FSearch
  else if is_set (used f) then Some FUsed
  else if is_set (generator f) then Some FGenerator
  else
    or_else (pair_target (excludePipelines f) (pipelines f) FExcludePipelines FPipelines)
   (or_else (pair_target (excludeCreators f) (creators f) FExcludeCreators FCreators)
   (or_else (pair_target (excludeScalers f) (scalers f) FExcludeScalers FScalers)
            (pair_target (excludeGroups f) (groups f) FExcludeGroups FGroups))).

(** Field [fld] is the same in [f] and [g]. *)
Definition field_same (fld : Field) (f g : FilterState) : Prop :=
  match fld with
  | FSearch => search f = search g
  | FUsed => used f = used g
  | FGenerator => generator f = generator g
  | FExcludePipelines => excludePipelines f = excludePipelines g
  | FPipelines => pipelines f = pipelines g
  | FExcludeCreators => excludeCreators f = excludeCreators g
  | FCreators => creators f = creators g
  | FExcludeScalers => excludeScalers f = excludeScalers g
  | FScalers => scalers f = scalers g
  | FExcludeGroups => excludeGroups f = excludeGroups g
  | FGroups => groups f = groups g
  end.

(** [l'] is [l] without its last element. *)
Definition popped {A} (l l' : list A) : Prop := exists x, l = l' ++ [x].

(** One filter of field [fld] of [f] is removed in [g]: a set scalar is
    cleared, a sequence loses its last element. *)
Definition field_removed (fld : Field) (f g : FilterState) : Prop :=
  match fld with
  | FSearch => search f <> [] /\ search g = []
  | FUsed => used f <> None /\ used g = None
  | FGenerator => generator f <> None /\ generator g = None
  | FExcludePipelines => popped (excludePipelines f) (excludePipelines g)
  | FPipelines => popped (pipelines f) (pipelines g)
  | FExcludeCreators => popped (excludeCreators f) (excludeCreators g)
  | FCreators => popped (creators f) (creators g)
  | FExcludeScalers => popped (excludeScalers f) (excludeScalers g)
  | FScalers => popped (scalers f) (scalers g)
  | FExcludeGroups => popped (excludeGroups f) (excludeGroups g)
  | FGroups => popped (groups f) (groups g)
  end.

Definition b2n (b : bool) : nat := if b then 1 else 0.

(** The number of active filters. *)
Definition active_count (f : FilterState) : nat :=
  b2n (truthy (search f)) + b2n (is_set (used f)) + b2n (is_set (generator f))
  + length (groups f) + length (excludeGroups f)
  + length (scalers f) + length (excludeScalers f)
  + length (creators f) + length (excludeCreators f)
  + length (pipelines f) + length (excludePipelines f).

(** Values the serializer writes back unchanged for the tokenizer: a value
    with a space is quoted, so it must hold no double quote; any other value
    is written bare, so it must be non-empty, hold no whitespace and not
    open with a double quote. *)
Definition bare_ok (v : jsstring) : bool :=
  nonempty v
  && forallb (fun c => negb (is_space c)) v
  && negb (startsWith v [dquote]).

Definition value_ok (v : jsstring) : bool :=
  if includes v [space]
  then forallb (fun c => negb (Ascii.eqb c dquote)) v
  else bare_ok v.

Definition no_token (s : jsstring) : bool :=
  match regex_exec s with Some _ => false | None => true end.

(** Filter states in the range where serializing and parsing are inverse:
    every value of the group, creator and pipeline sequences satisfies
    [value_ok], every scaler value [bare_ok] (the serializer never quotes a
    scaler), and the free text holds no token. *)
Definition canonical (f : FilterState) : bool :=
  forallb value_ok (groups f) && forallb value_ok (excludeGroups f)
  && forallb bare_ok (scalers f) && forallb bare_ok (excludeScalers f)
  && forallb value_ok (creators f) && forallb value_ok (excludeCreators f)
  && forallb value_ok (pipelines f) && forallb value_ok (excludePipelines f)
  && no_token (search f).

(** Free text in normal form, read from a position that follows a
    whitespace ([after_space]) or not: no whitespace but single spaces, each
    followed by a character that is not whitespace. *)
Fixpoint normal_from (after_space : bool) (s : jsstring) : bool :=
  match s with
  | [] => negb after_space
  | c :: s' =>
      if is_space c
      then negb after_space && Ascii.eqb c space && normal_from true s'
      else normal_from false s'
  end.

(** The tokens a filter state stands for, as negation, key and value, in
    the order of the serializer. *)
Record Item := mkItem {
  it_neg : bool;
  it_key : jsstring;
  it_value : jsstring
}.

Definition generator_items (g : option bool) : list Item :=
  match g with
  | Some b => [mkItem (negb b) (lit "is") (lit "generator")]
  | None => []
  end.

Definition used_items (u : option bool) : list Item :=
  match u with
  | Some true => [mkItem false (lit "is") (lit "used")]
  | Some false => [mkItem false (lit "is") (lit "orphan")]
  | None => []
  end.

Definition items (f : FilterState) : list Item :=
  map (mkItem false (lit "group")) (groups f)
  ++ map (mkItem true (lit "group")) (excludeGroups f)
  ++ map (mkItem false (lit "scaler")) (scalers f)
  ++ map (mkItem true (lit "scaler")) (excludeScalers f)
  ++ generator_items (generator f)
  ++ map (mkItem false (lit "creator")) (creators f)
  ++ map (mkItem true (lit "creator")) (excludeCreators f)
  ++ used_items (used f)
  ++ map (mkItem false (lit "pipeline")) (pipelines f)
  ++ map (mkItem true (lit "pipeline")) (excludePipelines f).

(** The text of an item and the token the tokenizer is to read from it. *)
Definition render (it : Item) : jsstring :=
  neg_prefix (it_neg it) ++ it_key it ++ colon :: quote_if_space (it_value it).

Definition item_token (it : Item) : ParsedToken :=
  mkToken (it_key it) (it_value it) (it_neg it) (render it).

Definition item_ok (it : Item) : bool :=
  nonempty (it_key it) && forallb is_word (it_key it)
  && str_eqb (toLowerCase (it_key it)) (it_key it)
  && value_ok (it_value it).

(** The input rebuilt from the text around the matches and the matches:
    gap, match, gap, ..., match, gap. *)
Fixpoint weave (gaps raws : list jsstring) : jsstring :=
  match gaps, raws with
  | g :: gaps', r :: raws' => g ++ r ++ weave gaps' raws'
  | g :: _, [] => g
  | [], _ => []
  end.

(** The values of the tokens of one key and one polarity, in order. *)
Definition token_values (k : jsstring) (neg : bool) (tokens : list ParsedToken)
    : list jsstring :=
  map value
    (filter (fun t => str_eqb (key t) k && Bool.eqb (negated t) neg) tokens).

(** The creator a token value stands for. *)
Definition expand_me (currentUser v : jsstring) : jsstring :=
  if str_eqb v (lit "@me") && truthy currentUser then currentUser else v.

Definition known_key (k : jsstring) : bool :=
  array_includes
    [lit "group"; lit "scaler"; lit "is"; lit "generator"; lit "creator";
     lit "pipeline"] k.

(** The field [removeFilter] works on, by badge type and polarity. *)
Definition removal_field (type : BadgeType) (negated : bool) : Field :=
  match type with
  | BGroup => if negated then FExcludeGroups else FGroups
  | BScaler => if negated then FExcludeScalers else FScalers
  | BGenerator => FGenerator
  | BSearch => FSearch
  | BCreator => if negated then FExcludeCreators else FCreators
  | BUsed => FUsed
  | BPipeline => if negated then FExcludePipelines else FPipelines
  end.

(** The values of a sequence field; a scalar field has none. *)
Definition field_values (fld : Field) (f : FilterState) : list jsstring :=
  match fld with
  | FSearch | FUsed | FGenerator => []
  | FExcludePipelines => excludePipelines f
  | FPipelines => pipelines f
  | FExcludeCreators => excludeCreators f
  | FCreators => creators f
  | FExcludeScalers => excludeScalers f
  | FScalers => scalers f
  | FExcludeGroups => excludeGroups f
  | FGroups => groups f
  end.

(** The conditions an image meets to pass the filter, one per field. *)
Definition image_passes (f : FilterState) (image : Image) : Prop :=
  (search f <> [] ->
     text_matches (img_name image) (toLowerCase (search f)) = true
     \/ text_matches (img_description image) (toLowerCase (search f)) = true)
  /\ (groups f <> [] -> In (img_group image) (groups f))
  /\ ~ In (img_group image) (excludeGroups f)
  /\ (scalers f <> [] -> In (img_scaler image) (scalers f))
  /\ ~ In (img_scaler image) (excludeScalers f)
  /\ (forall g, generator f = Some g -> img_generator image = g)
  /\ (creators f <> [] -> In (img_creator image) (creators f))
  /\ ~ In (img_creator image) (excludeCreators f)
  /\ ((used f = Some true -> usedByPipelines image <> [])
      /\ (used f = Some false -> usedByPipelines image = []))
  /\ (pipelines f <> [] ->
      exists p, In p (pipelines f) /\ In p (usedByPipelines image))
  /\ (forall p, In p (excludePipelines f) -> ~ In p (usedByPipelines image)).

(** The example of the specification for the removal of the last filter. *)
Definition backspace_example : FilterState :=
  set_pipelines (set_search DEFAULT_FILTER_STATE (lit "x")) [lit "p1"].

(** ** Strings: basic facts *)

Lemma str_eqb_eq (a b : jsstring) : str_eqb a b = true <-> a = b.
Proof.
  revert b; induction a as [|x a IH]; intros [|y b]; simpl; split;
    try congruence; try reflexivity.
  - intros H. apply andb_true_iff in H as [Hxy Hab].
    apply Ascii.eqb_eq in Hxy. apply IH in Hab. congruence.
  - intros H. injection H as -> ->. apply andb_true_iff; split.
    + apply Ascii.eqb_refl.
    + now apply IH.
Qed.

Lemma str_eqb_refl (a : jsstring) : str_eqb a a = true.
Proof. now apply str_eqb_eq. Qed.

Lemma slice_pop {A} (l : list A) (x : A) : slice (l ++ [x]) 0 (-1) = l.
Proof.
  unfold slice, clamp_index. rewrite length_app. simpl.
  replace (Z.to_nat (Z.max (Z.of_nat (length l + 1) + -1) 0)) with (length l) by lia.
  rewrite Nat.sub_0_r. rewrite firstn_app, Nat.sub_diag, firstn_all. simpl.
  apply app_nil_r.
Qed.

Lemma nonempty_last {A} (l : list A) :
  nonempty l = true -> exists l' x, l = l' ++ [x].
Proof.
  destruct l as [|a l]; [discriminate|]. intros _.
  destruct (exists_last (l := a :: l)) as (l' & x & E); [discriminate|].
  now exists l', x.
Qed.

Lemma fold_push {A B} (h : A -> B) (l : list A) (acc : list B) :
  fold_left (fun parts x => push parts (h x)) l acc = acc ++ map h l.
Proof.
  revert acc; induction l as [|x l IH]; intros acc; simpl.
  - now rewrite app_nil_r.
  - rewrite IH. unfold push. now rewrite <- app_assoc.
Qed.

(** ** The serializer *)

(** The parts the serializer joins, in closed form. *)
Lemma serializer_parts (f : FilterState) :
  filtersToQueryString f =
  join [space]
    (map (fun v => lit "group:" ++ quote_if_space v) (groups f)
     ++ map (fun v => lit "-group:" ++ quote_if_space v) (excludeGroups f)
     ++ map (fun v => lit "scaler:" ++ v) (scalers f)
     ++ map (fun v => lit "-scaler:" ++ v) (excludeScalers f)
     ++ generator_part (generator f)
     ++ map (fun v => lit "creator:" ++ quote_if_space v) (creators f)
     ++ map (fun v => lit "-creator:" ++ quote_if_space v) (excludeCreators f)
     ++ used_part (used f)
     ++ map (fun v => lit "pipeline:" ++ quote_if_space v) (pipelines f)
     ++ map (fun v => lit "-pipeline:" ++ quote_if_space v) (excludePipelines f)
     ++ search_part (search f)).
Proof.
  unfold filtersToQueryString. cbv zeta.
  rewrite !fold_push. f_equal.
  assert (G : forall acc : list jsstring,
             match generator f with
             | Some true => push acc (lit "is:generator")
             | Some false => push acc (lit "-is:generator")
             | None => acc
             end = acc ++ generator_part (generator f)).
  { intros acc. destruct (generator f) as [[|]|]; simpl; auto using app_nil_r. }
  assert (U : forall acc : list jsstring,
             match used f with
             | Some true => push acc (lit "is:used")
             | Some false => push acc (lit "is:orphan")
             | None => acc
             end = acc ++ used_part (used f)).
  { intros acc. destruct (used f) as [[|]|]; simpl; auto using app_nil_r. }
  rewrite G, U.
  assert (S : forall acc : list jsstring,
             (if truthy (search f) then push acc (search f) else acc)
             = acc ++ search_part (search f)).
  { intros acc. destruct (search f); simpl; auto using app_nil_r. }
  rewrite S. simpl. now rewrite <- !app_assoc.
Qed.

Lemma join_concat sep p ps :
  join sep (p :: ps) ++ sep = concat (map (fun x => x ++ sep) (p :: ps)).
Proof.
  revert p; induction ps as [|q ps IH]; intros p.
  - cbn. now rewrite app_nil_r.
  - change (join sep (p :: q :: ps)) with (p ++ sep ++ join sep (q :: ps)).
    rewrite <- !app_assoc, (IH q). cbn [map concat].
    now rewrite <- !app_assoc.
Qed.

(** C6: for every filter state, whatever its construction, the serializer
    emits its tokens in the fixed order groups (include, exclude), scalers
    (include, exclude), generator, creators (include, exclude), used/orphan,
    pipelines (include, exclude), free text, joined by single spaces: with
    no token the text is empty, and otherwise the text followed by one
    space is the tokens in that order, each followed by one space. *)
Theorem filtersToQueryString_order (f : FilterState) :
  match
    map (fun v => lit "group:" ++ quote_if_space v) (groups f)
    ++ map (fun v => lit "-group:" ++ quote_if_space v) (excludeGroups f)
    ++ map (fun v => lit "scaler:" ++ v) (scalers f)
    ++ map (fun v => lit "-scaler:" ++ v) (excludeScalers f)
    ++ generator_part (generator f)
    ++ map (fun v => lit "creator:" ++ quote_if_space v) (creators f)
    ++ map (fun v => lit "-creator:" ++ quote_if_space v) (excludeCreators f)
    ++ used_part (used f)
    ++ map (fun v => lit "pipeline:" ++ quote_if_space v) (pipelines f)
    ++ map (fun v => lit "-pipeline:" ++ quote_if_space v) (excludePipelines f)
    ++ search_part (search f)
  with
  | [] => filtersToQueryString f = []
  | tokens =>
      filtersToQueryString f ++ [space]
      = concat (map (fun token => token ++ [space]) tokens)
  end.
Proof.
  rewrite serializer_parts.
  match goal with |- match ?l with _ => _ end => destruct l as [|p ps] end.
  - reflexivity.
  - apply join_concat.
Qed.

(** C2, at a scaler value: the value [a b] holds a space and is emitted
    bare, without double quotes, unlike a group value; parsing the output
    back splits it into the scaler [a] and the free text [b]. *)
Lemma scaler_with_space_not_quoted :
  let f := set_scalers DEFAULT_FILTER_STATE [lit "a b"] in
  includes (lit "a b") [space] = true
  /\ filtersToQueryString f = lit "scaler:a b"
  /\ includes (filtersToQueryString f) [dquote] = false
  /\ filtersToQueryString (set_groups DEFAULT_FILTER_STATE [lit "a b"])
     = lit "group:" ++ dquote :: lit "a b" ++ [dquote]
  /\ parseQueryString (lit "scaler:" ++ dquote :: lit "a b" ++ [dquote]) [] = Some f
  /\ parseQueryString (filtersToQueryString f) []
     = Some (set_search (set_scalers DEFAULT_FILTER_STATE [lit "a"]) (lit "b")).
Proof. vm_compute. repeat split; reflexivity. Qed.

(** C10: the empty state serializes to the empty string, and the empty
    query string parses to the empty state whoever the current user is. *)
Theorem empty_state_roundtrip :
  filtersToQueryString DEFAULT_FILTER_STATE = []
  /\ forall currentUser, parseQueryString [] currentUser = Some DEFAULT_FILTER_STATE.
Proof. split; [reflexivity | intros cu; reflexivity]. Qed.

(** ** The filter-state mapper *)

Lemma tokensToFilters_snoc tokens t freeText currentUser :
  tokensToFilters (tokens ++ [t]) freeText currentUser
  = applyToken currentUser (tokensToFilters tokens freeText currentUser) t.
Proof. unfold tokensToFilters. now rewrite fold_left_app. Qed.

(** Comparisons between two literals are decided by evaluation. *)
Ltac eval_lits :=
  repeat match goal with
    | |- context [str_eqb (lit ?a) (lit ?b)] =>
        let r := eval vm_compute in (str_eqb (lit a) (lit b)) in
        change (str_eqb (lit a) (lit b)) with r
    end;
  cbv iota.

(** Case analysis on the key of a token, as the [switch] does it. *)
Ltac key_is k s :=
  let E := fresh "E" in
  destruct (str_eqb k (lit s)) eqn:E;
  [apply str_eqb_eq in E; subst k; eval_lits | ].

Lemma generator_applyToken cu f t :
  generator (applyToken cu f t)
  = match generator_effect t with Some b => Some b | None => generator f end.
Proof.
  destruct t as [k v n r]. unfold applyToken, generator_effect, array_includes.
  cbn [key value negated raw existsb]. rewrite !orb_false_r, !orb_assoc.
  key_is k "is"%string.
  - destruct (str_eqb (toLowerCase v) (lit "generator"));
      destruct (str_eqb (toLowerCase v) (lit "used"));
      destruct (str_eqb (toLowerCase v) (lit "orphan")); reflexivity.
  - key_is k "group"%string; [destruct n; reflexivity|].
    key_is k "scaler"%string; [destruct n; reflexivity|].
    key_is k "generator"%string.
    { destruct (_ || _); [reflexivity|]. destruct (_ || _); reflexivity. }
    key_is k "creator"%string; [destruct n; reflexivity|].
    key_is k "pipeline"%string; [destruct n; reflexivity|].
    reflexivity.
Qed.

Lemma used_applyToken cu f t :
  used (applyToken cu f t)
  = match used_effect t with Some b => Some b | None => used f end.
Proof.
  destruct t as [k v n r]. unfold applyToken, used_effect, array_includes.
  cbn [key value negated raw existsb]. rewrite !orb_false_r, !orb_assoc.
  key_is k "is"%string.
  - destruct (str_eqb (toLowerCase v) (lit "generator"));
      destruct (str_eqb (toLowerCase v) (lit "used"));
      destruct (str_eqb (toLowerCase v) (lit "orphan")); reflexivity.
  - key_is k "group"%string; [destruct n; reflexivity|].
    key_is k "scaler"%string; [destruct n; reflexivity|].
    key_is k "generator"%string.
    { destruct (_ || _); [reflexivity|]. destruct (_ || _); reflexivity. }
    key_is k "creator"%string; [destruct n; reflexivity|].
    key_is k "pipeline"%string; [destruct n; reflexivity|].
    reflexivity.
Qed.

Lemma last_effect_snoc effect tokens t :
  last_effect effect (tokens ++ [t])
  = match effect t with Some b => Some b | None => last_effect effect tokens end.
Proof.
  unfold last_effect. rewrite rev_app_distr. simpl.
  destruct (effect t) eqn:E; simpl; [exact E | reflexivity].
Qed.

(** C7: for every token list, the [generator] and the [used] tri-state of
    the result are what the last token with an effect on that tri-state
    dictates (unset when no token has one): later tokens overwrite earlier
    ones. *)
Theorem tristate_last_token_wins tokens freeText currentUser :
  generator (tokensToFilters tokens freeText currentUser)
    = last_effect generator_effect tokens
  /\ used (tokensToFilters tokens freeText currentUser)
    = last_effect used_effect tokens.
Proof.
  induction tokens as [|t tokens [IHg IHu]] using rev_ind.
  - split; reflexivity.
  - rewrite tokensToFilters_snoc, generator_applyToken, used_applyToken,
      !last_effect_snoc, IHg, IHu.
    split; reflexivity.
Qed.

(** What a token adds to the creator sequences does not depend on the
    state it is applied to. *)
Lemma creators_applyToken cu f t :
  creators (applyToken cu f t)
  = creators f ++ creators (applyToken cu DEFAULT_FILTER_STATE t).
Proof.
  destruct t as [k v n r]. unfold applyToken. cbn [key value negated raw].
  key_is k "is"%string.
  - destruct (str_eqb (toLowerCase v) (lit "generator"));
      destruct (str_eqb (toLowerCase v) (lit "used"));
      destruct (str_eqb (toLowerCase v) (lit "orphan")); simpl;
      now rewrite app_nil_r.
  - key_is k "group"%string; [destruct n; simpl; now rewrite app_nil_r|].
    key_is k "scaler"%string; [destruct n; simpl; now rewrite app_nil_r|].
    key_is k "generator"%string.
    { destruct (array_includes _ _); [simpl; now rewrite app_nil_r|].
      destruct (array_includes _ _); simpl; now rewrite app_nil_r. }
    key_is k "creator"%string; [destruct n; simpl; now rewrite ?app_nil_r|].
    key_is k "pipeline"%string; [destruct n; simpl; now rewrite app_nil_r|].
    simpl; now rewrite app_nil_r.
Qed.

Lemma excludeCreators_applyToken cu f t :
  excludeCreators (applyToken cu f t)
  = excludeCreators f ++ excludeCreators (applyToken cu DEFAULT_FILTER_STATE t).
Proof.
  destruct t as [k v n r]. unfold applyToken. cbn [key value negated raw].
  key_is k "is"%string.
  - destruct (str_eqb (toLowerCase v) (lit "generator"));
      destruct (str_eqb (toLowerCase v) (lit "used"));
      destruct (str_eqb (toLowerCase v) (lit "orphan")); simpl;
      now rewrite app_nil_r.
  - key_is k "group"%string; [destruct n; simpl; now rewrite app_nil_r|].
    key_is k "scaler"%string; [destruct n; simpl; now rewrite app_nil_r|].
    key_is k "generator"%string.
    { destruct (array_includes _ _); [simpl; now rewrite app_nil_r|].
      destruct (array_includes _ _); simpl; now rewrite app_nil_r. }
    key_is k "creator"%string; [destruct n; simpl; now rewrite ?app_nil_r|].
    key_is k "pipeline"%string; [destruct n; simpl; now rewrite app_nil_r|].
    simpl; now rewrite app_nil_r.
Qed.

Lemma creators_fold cu tokens f freeText :
  creators (fold_left (applyToken cu) tokens f)
  = creators f ++ creators (tokensToFilters tokens freeText cu).
Proof.
  induction tokens as [|t tokens IH] using rev_ind.
  - simpl. now rewrite app_nil_r.
  - rewrite tokensToFilters_snoc, fold_left_app. simpl.
    rewrite creators_applyToken, IH.
    rewrite (creators_applyToken cu (tokensToFilters tokens freeText cu)).
    now rewrite app_assoc.
Qed.

Lemma excludeCreators_fold cu tokens f freeText :
  excludeCreators (fold_left (applyToken cu) tokens f)
  = excludeCreators f ++ excludeCreators (tokensToFilters tokens freeText cu).
Proof.
  induction tokens as [|t tokens IH] using rev_ind.
  - simpl. now rewrite app_nil_r.
  - rewrite tokensToFilters_snoc, fold_left_app. simpl.
    rewrite excludeCreators_applyToken, IH.
    rewrite (excludeCreators_applyToken cu (tokensToFilters tokens freeText cu)).
    now rewrite app_assoc.
Qed.

(** C8: a token [creator:@me], negated or not, anywhere in a token list,
    appends the current user to [creators] ([excludeCreators] when negated)
    when the current user is a non-empty string, and the literal [@me]
    when none is supplied; the other fields are as the tokens before it
    left them.  The two examples of the specification follow. *)
Theorem creator_me_expansion pre post freeText currentUser neg rw :
  let tok := mkToken (lit "creator") (lit "@me") neg rw in
  let who := if truthy currentUser then currentUser else lit "@me" in
  let before := tokensToFilters pre freeText currentUser in
  let after := tokensToFilters post [] currentUser in
  let result := tokensToFilters (pre ++ tok :: post) freeText currentUser in
  tokensToFilters (pre ++ [tok]) freeText currentUser
    = (if neg then set_excludeCreators before (excludeCreators before ++ [who])
       else set_creators before (creators before ++ [who]))
  /\ creators result
     = creators before ++ (if neg then [] else [who]) ++ creators after
  /\ excludeCreators result
     = excludeCreators before ++ (if neg then [who] else []) ++ excludeCreators after
  /\ (exists tokens,
        parseInput (lit "creator:@me") = Some tokens
        /\ creators (tokensToFilters tokens [] (lit "alice")) = [lit "alice"]
        /\ creators (tokensToFilters tokens [] []) = [lit "@me"]).
Proof.
  intros tok who before after result.
  assert (Hstep : applyToken currentUser before tok
                  = if neg then set_excludeCreators before (excludeCreators before ++ [who])
                    else set_creators before (creators before ++ [who])).
  { unfold applyToken, tok, who. cbn [key value negated raw]. eval_lits.
    simpl.
    destruct (truthy currentUser); reflexivity. }
  split; [|split; [|split]].
  - rewrite tokensToFilters_snoc. exact Hstep.
  - unfold result, tokensToFilters at 1.
    rewrite fold_left_app. simpl fold_left at 1.
    fold (tokensToFilters pre freeText currentUser). fold before.
    rewrite (creators_fold currentUser post _ []), Hstep. fold after.
    destruct neg; simpl; now rewrite <- ?app_assoc.
  - unfold result, tokensToFilters at 1.
    rewrite fold_left_app. simpl fold_left at 1.
    fold (tokensToFilters pre freeText currentUser). fold before.
    rewrite (excludeCreators_fold currentUser post _ []), Hstep. fold after.
    destruct neg; simpl; now rewrite <- ?app_assoc.
  - exists [mkToken (lit "creator") (lit "@me") false (lit "creator:@me")].
    repeat split; reflexivity.
Qed.

(** ** Removing the last filter *)

Ltac removal_case fld :=
  exists fld;
  split; [reflexivity|];
  split; [assumption|];
  split; [|split;
            [intros other Ho; destruct other; try reflexivity; congruence
            |cbn;
             repeat match goal with
               | H : ?b = false |- context [?b] => rewrite H
               end;
             rewrite ?length_app; simpl; lia]].

Ltac pop_case l fld :=
  let E := fresh "E" in
  let l' := fresh "l" in
  let x := fresh "x" in
  destruct (nonempty l) eqn:E;
  [ destruct (nonempty_last l E) as (l' & x & ->);
    rewrite slice_pop in *;
    removal_case fld; [now exists x] | ].

(** C5: with an empty input box, backspace on a filter state with an active
    filter hands [onChange] the state with exactly one filter removed: the
    free-text search if there is one, else [used], else [generator], else
    the last element of the first non-empty sequence among the exclude and
    include sequences of pipelines, creators, scalers and groups, in that
    order; every other field is unchanged. *)
Theorem backspace_removes_by_precedence (f : FilterState) :
  hasActiveFilters f = true ->
  exists fld,
    removal_target f = Some fld
    /\ handleBackspace [] f = Some (removeLastFilter f)
    /\ field_removed fld f (removeLastFilter f)
    /\ (forall other, other <> fld -> field_same other f (removeLastFilter f))
    /\ active_count (removeLastFilter f) + 1 = active_count f.
Proof.
  intros H.
  assert (HB : handleBackspace [] f = Some (removeLastFilter f)).
  { unfold handleBackspace. now rewrite H. }
  revert H HB.
  destruct f as [s g eg sc esc gen c ec u p ep].
  unfold hasActiveFilters, removeLastFilter, removal_target, active_count,
    pair_target, or_else.
  unfold set_search, set_used, set_generator, set_pipelines, set_excludePipelines,
    set_creators, set_excludeCreators, set_scalers, set_excludeScalers,
    set_groups, set_excludeGroups.
  cbn [search groups excludeGroups scalers excludeScalers generator creators
       excludeCreators used pipelines excludePipelines].
  destruct (truthy s) eqn:Es.
  { intros _ HB. removal_case FSearch.
    split; [|reflexivity]. destruct s; [discriminate|]. discriminate. }
  destruct (is_set u) eqn:Eu.
  { intros _ HB. removal_case FUsed.
    split; [|reflexivity]. destruct u; [|discriminate]. discriminate. }
  destruct (is_set gen) eqn:Eg.
  { intros _ HB. removal_case FGenerator.
    split; [|reflexivity]. destruct gen; [|discriminate]. discriminate. }
  intros H HB.
  pop_case ep FExcludePipelines.
  pop_case p FPipelines.
  pop_case ec FExcludeCreators.
  pop_case c FCreators.
  pop_case esc FExcludeScalers.
  pop_case sc FScalers.
  pop_case eg FExcludeGroups.
  pop_case g FGroups.
  discriminate H.
Qed.

(** The example of the specification: the first backspace clears the
    search and leaves the pipeline, the second removes the pipeline. *)
Lemma backspace_example_steps :
  handleBackspace [] backspace_example
    = Some (set_pipelines DEFAULT_FILTER_STATE [lit "p1"])
  /\ handleBackspace [] (set_pipelines DEFAULT_FILTER_STATE [lit "p1"])
    = Some DEFAULT_FILTER_STATE
  /\ handleBackspace [] DEFAULT_FILTER_STATE = None.
Proof. repeat split; reflexivity. Qed.

Lemma backspace_removes_by_precedence_witness :
  hasActiveFilters backspace_example = true
  /\ exists fld,
      removal_target backspace_example = Some fld
      /\ handleBackspace [] backspace_example
         = Some (removeLastFilter backspace_example)
      /\ field_removed fld backspace_example (removeLastFilter backspace_example)
      /\ (forall other, other <> fld ->
            field_same other backspace_example (removeLastFilter backspace_example))
      /\ active_count (removeLastFilter backspace_example) + 1
         = active_count backspace_example.
Proof.
  split; [reflexivity|].
  apply (backspace_removes_by_precedence backspace_example). reflexivity.
Defined.

(** ** The tokenizer: matches and what they consume *)

Lemma span_split p s a b : span p s = (a, b) -> s = a ++ b.
Proof.
  revert a b; induction s as [|c s IH]; simpl; intros a b E.
  - now inversion E.
  - destruct (p c).
    + destruct (span p s) as [a' b'] eqn:E'. inversion E; subst.
      simpl. f_equal. now apply IH.
    + now inversion E.
Qed.

(** A run of characters of the class, followed by the end of the input or
    by a character outside the class, is exactly what the greedy class
    consumes. *)
Lemma span_exact p a b :
  forallb p a = true ->
  match b with [] => True | c :: _ => p c = false end ->
  span p (a ++ b) = (a, b).
Proof.
  intros Ha Hb. induction a as [|x a IH]; simpl in *.
  - destruct b as [|c b]; [reflexivity|]. simpl. now rewrite Hb.
  - apply andb_true_iff in Ha as [Hx Ha]. rewrite Hx, IH; auto.
Qed.


Lemma span_stop p s a c b : span p s = (a, c :: b) -> p c = false.
Proof.
  revert a; induction s as [|x s IH]; simpl; intros a E.
  - discriminate.
  - destruct (p x) eqn:Hx.
    + destruct (span p s) as [a' b'] eqn:E'. inversion E; subst. eauto.
    + inversion E; subst. exact Hx.
Qed.

Lemma span_forall p s a b : span p s = (a, b) -> forallb p a = true.
Proof.
  revert a; induction s as [|x s IH]; simpl; intros a E.
  - now inversion E.
  - destruct (p x) eqn:Hx.
    + destruct (span p s) as [a' b'] eqn:E'. inversion E; subst.
      simpl. rewrite Hx. eauto.
    + now inversion E.
Qed.

Lemma match_quoted_split s v rest :
  match_quoted s = Some (v, rest) -> s = v ++ rest /\ v <> [].
Proof.
  unfold match_quoted. destruct s as [|c s]; [discriminate|].
  destruct (Ascii.eqb c dquote) eqn:Ec; [|discriminate].
  destruct (span (fun x => negb (Ascii.eqb x dquote)) s) as [body r] eqn:Es.
  destruct r as [|d r']; [discriminate|].
  intros E; inversion E; subst. split; [|discriminate].
  apply Ascii.eqb_eq in Ec. subst c.
  pose proof (span_stop _ _ Es) as Hd. apply negb_false_iff, Ascii.eqb_eq in Hd.
  subst d. apply span_split in Es. subst s.
  simpl. now rewrite <- app_assoc.
Qed.

Lemma match_nonspace_split s v rest :
  match_nonspace s = Some (v, rest) -> s = v ++ rest /\ v <> [].
Proof.
  unfold match_nonspace.
  destruct (span (fun x => negb (is_space x)) s) as [w r] eqn:Ew.
  destruct w; [discriminate|].
  intros E; inversion E; subst. split; [|discriminate].
  now apply span_split in Ew.
Qed.

Lemma match_value_split s v rest :
  match_value s = Some (v, rest) -> s = v ++ rest /\ v <> [].
Proof.
  unfold match_value. destruct (match_quoted s) as [[v' r']|] eqn:Eq.
  - intros E; inversion E; subst. now apply match_quoted_split.
  - apply match_nonspace_split.
Qed.

(** A match is a prefix of the text it was tried on. *)
Lemma match_at_split s m rest :
  match_at s = Some (m, rest) -> s = matched m ++ rest.
Proof.
  unfold match_at.
  set (pr := match s with
             | c :: s' => if Ascii.eqb c dash then ([dash], s') else ([], s)
             | [] => ([], [])
             end).
  assert (Hpr : s = fst pr ++ snd pr).
  { subst pr. destruct s as [|c s]; [reflexivity|].
    destruct (Ascii.eqb c dash) eqn:Ec; [|reflexivity].
    apply Ascii.eqb_eq in Ec. now subst c. }
  destruct pr as [neg s1]. simpl in Hpr.
  destruct (span is_word s1) as [k s2] eqn:Ek.
  destruct k as [|k0 k]; [discriminate|].
  destruct s2 as [|c s3]; [discriminate|].
  destruct (Ascii.eqb c colon) eqn:Ec; [|discriminate].
  destruct (match_value s3) as [[v r]|] eqn:Ev; [|discriminate].
  intros E; inversion E; subst. unfold matched; simpl.
  apply Ascii.eqb_eq in Ec. subst c.
  apply span_split in Ek. apply match_value_split in Ev as [Ev _].
  rewrite Ek, Ev. simpl. repeat (rewrite <- app_assoc; simpl). reflexivity.
Qed.

Lemma matched_length m : 1 <= length (matched m).
Proof. unfold matched. rewrite !length_app. simpl. lia. Qed.

(** [exec] splits the input into the skipped text, the match and the rest. *)
Lemma regex_exec_split s pre m rest :
  regex_exec s = Some (pre, m, rest) -> s = pre ++ matched m ++ rest.
Proof.
  revert pre; induction s as [|c s IH]; intros pre; cbn [regex_exec].
  - destruct (match_at []) as [[m' r']|] eqn:E; [|discriminate].
    intros H; inversion H; subst. now apply match_at_split in E.
  - destruct (match_at (c :: s)) as [[m' r']|] eqn:E.
    + intros H; inversion H; subst. now apply match_at_split in E.
    + destruct (regex_exec s) as [[[p' m'] r']|]; [|discriminate].
      intros H; inversion H; subst. simpl. f_equal. now apply IH.
Qed.

Lemma regex_exec_shorter s pre m rest :
  regex_exec s = Some (pre, m, rest) -> length rest < length s.
Proof.
  intros H. apply regex_exec_split in H. subst s.
  rewrite !length_app. pose proof (matched_length m). lia.
Qed.

(** Every input has its sequence of matches: the iteration ends. *)
Lemma scans_total s : exists ms txt, scans s ms txt.
Proof.
  remember (length s) as n eqn:Hn.
  revert s Hn. induction n as [n IH] using lt_wf_ind. intros s Hn.
  destruct (regex_exec s) as [[[pre m] rest]|] eqn:E.
  - pose proof (regex_exec_shorter _ E) as Hlt.
    destruct (IH (length rest) ltac:(lia) rest eq_refl) as (ms & txt & Hs).
    exists (m :: ms), (pre ++ txt). eapply scans_step; eassumption.
  - exists [], s. now apply scans_end.
Qed.

Lemma scans_exec_loop s ms txt :
  scans s ms txt ->
  forall fuel, length s <= fuel ->
    exec_loop fuel s = Some (map token_of_match ms).
Proof.
  induction 1 as [s E | s pre m rest ms txt E Hs IH]; intros fuel Hf.
  - destruct fuel; simpl; now rewrite E.
  - pose proof (regex_exec_shorter _ E) as Hlt.
    destruct fuel as [|fuel]; [lia|]. simpl. rewrite E.
    rewrite IH by lia. reflexivity.
Qed.

Lemma scans_replace_loop s ms txt :
  scans s ms txt ->
  forall fuel, length s <= fuel -> replace_loop fuel s = Some txt.
Proof.
  induction 1 as [s E | s pre m rest ms txt E Hs IH]; intros fuel Hf.
  - destruct fuel; simpl; now rewrite E.
  - pose proof (regex_exec_shorter _ E) as Hlt.
    destruct fuel as [|fuel]; [lia|]. simpl. rewrite E.
    rewrite IH by lia. reflexivity.
Qed.

Lemma scans_parseInput s ms txt :
  scans s ms txt -> parseInput s = Some (map token_of_match ms).
Proof. intros H. unfold parseInput. eapply scans_exec_loop; eauto. Qed.

Lemma scans_extractFreeText s ms txt :
  scans s ms txt -> extractFreeText s = Some (normalize_text txt).
Proof.
  intros H. unfold extractFreeText, remove_tokens.
  now rewrite (scans_replace_loop H (le_n _)).
Qed.

Lemma scans_parseQueryString s ms txt cu :
  scans s ms txt ->
  parseQueryString s cu
  = Some (tokensToFilters (map token_of_match ms) (normalize_text txt) cu).
Proof.
  intros H. unfold parseQueryString.
  now rewrite (scans_parseInput H), (scans_extractFreeText H).
Qed.

(** A token whose key is none of the six the mapper knows leaves the state
    as it is. *)
Lemma applyToken_unknown cu f t :
  array_includes
    [lit "group"; lit "scaler"; lit "is"; lit "generator"; lit "creator";
     lit "pipeline"] (key t) = false ->
  applyToken cu f t = f.
Proof.
  destruct t as [k v n r]. unfold array_includes, applyToken.
  cbn [key value negated raw existsb]. rewrite orb_false_r.
  intros H. repeat (apply orb_false_iff in H; destruct H as [? H]).
  assert (Hsym : forall a b, str_eqb a b = str_eqb b a).
  { intros a b. destruct (str_eqb a b) eqn:E1, (str_eqb b a) eqn:E2; auto;
      [apply str_eqb_eq in E1; subst; now rewrite str_eqb_refl in E2
      |apply str_eqb_eq in E2; subst; now rewrite str_eqb_refl in E1]. }
  rewrite !(Hsym k) in *.
  repeat match goal with H : ?b = false |- context [?b] => rewrite H end.
  reflexivity.
Qed.

(** ** The tokenizer: recognizing a token *)

Lemma word_not_dash c : is_word c = true -> Ascii.eqb c dash = false.
Proof.
  intros H. destruct (Ascii.eqb c dash) eqn:E; [|reflexivity].
  apply Ascii.eqb_eq in E. subst c. discriminate H.
Qed.

Lemma match_at_intro neg k v rest :
  k <> [] ->
  forallb is_word k = true ->
  match_value (v ++ rest) = Some (v, rest) ->
  match_at (neg_prefix neg ++ k ++ colon :: v ++ rest)
  = Some (mkMatch (neg_prefix neg) k v, rest).
Proof.
  intros Hk Hw Hv. unfold match_at.
  assert (Hs : span is_word (k ++ colon :: v ++ rest) = (k, colon :: v ++ rest)).
  { apply span_exact; [assumption | reflexivity]. }
  destruct k as [|k0 k]; [congruence|].
  assert (Hk0 : Ascii.eqb k0 dash = false).
  { apply word_not_dash. simpl in Hw. now apply andb_true_iff in Hw. }
  destruct neg; cbn [neg_prefix app].
  - change (Ascii.eqb dash dash) with true. cbv iota.
    change (k0 :: k ++ colon :: v ++ rest) with ((k0 :: k) ++ colon :: v ++ rest).
    rewrite Hs. change (Ascii.eqb colon colon) with true. cbv iota.
    now rewrite Hv.
  - rewrite Hk0.
    change (k0 :: k ++ colon :: v ++ rest) with ((k0 :: k) ++ colon :: v ++ rest).
    rewrite Hs. change (Ascii.eqb colon colon) with true. cbv iota.
    now rewrite Hv.
Qed.

Lemma regex_exec_here s m rest :
  match_at s = Some (m, rest) -> regex_exec s = Some ([], m, rest).
Proof. intros H. destruct s; cbn [regex_exec]; now rewrite H. Qed.

(** A bare value: a non-empty run of non-whitespace that the quoted form
    does not match, up to the end of the input or to a whitespace. *)
Lemma match_value_bare v rest :
  v <> [] ->
  forallb (fun c => negb (is_space c)) v = true ->
  match rest with [] => True | c :: _ => is_space c = true end ->
  match_quoted (v ++ rest) = None ->
  match_value (v ++ rest) = Some (v, rest).
Proof.
  intros Hv Hns Hrest Hq. unfold match_value, match_nonspace. rewrite Hq.
  rewrite span_exact; auto.
  - destruct v; [congruence | reflexivity].
  - destruct rest; [exact I|]. now rewrite Hrest.
Qed.

(** A quoted value: the body holds no double quote. *)
Lemma match_value_quoted body rest :
  forallb (fun c => negb (Ascii.eqb c dquote)) body = true ->
  match_value ((dquote :: body ++ [dquote]) ++ rest)
  = Some (dquote :: body ++ [dquote], rest).
Proof.
  intros Hb. unfold match_value, match_quoted. cbn [app].
  change (Ascii.eqb dquote dquote) with true. cbv iota.
  rewrite <- app_assoc. cbn [app].
  rewrite span_exact; auto.
Qed.


Lemma startsWith_head_char d c v : startsWith (c :: v) [d] = Ascii.eqb d c.
Proof. cbn [startsWith]. destruct v; apply andb_true_r. Qed.

Lemma startsWith_head c v : startsWith (c :: v) [dquote] = Ascii.eqb dquote c.
Proof. apply startsWith_head_char. Qed.

Lemma match_quoted_not_quote v rest :
  startsWith v [dquote] = false -> v <> [] -> match_quoted (v ++ rest) = None.
Proof.
  intros H Hv. destruct v as [|c v]; [congruence|].
  unfold match_quoted. cbn [app]. rewrite startsWith_head in H.
  rewrite Ascii.eqb_sym. now rewrite H.
Qed.

Lemma negated_neg_prefix neg : str_eqb (neg_prefix neg) [dash] = neg.
Proof. destruct neg; reflexivity. Qed.

Lemma endsWith_last v c : endsWith (v ++ [c]) [dquote] = Ascii.eqb dquote c.
Proof.
  unfold endsWith. rewrite rev_app_distr. cbn [rev app].
  apply startsWith_head.
Qed.

Lemma slice_strip {A} (a b : A) (l : list A) : slice (a :: l ++ [b]) 1 (-1) = l.
Proof.
  unfold slice, clamp_index. cbn [length]. rewrite length_app. simpl length.
  change (1 <? 0)%Z with false. change (-1 <? 0)%Z with true. cbv iota.
  replace (Nat.min (Z.to_nat 1) (S (length l + 1))) with 1 by lia.
  replace (Z.to_nat (Z.max (Z.of_nat (S (length l + 1)) + -1) 0))
    with (S (length l)) by lia.
  simpl. rewrite Nat.sub_0_r, firstn_app, Nat.sub_diag, firstn_all. simpl.
  apply app_nil_r.
Qed.

(** The token of a bare value that does not open with a double quote. *)
Lemma token_of_match_bare neg k v :
  startsWith v [dquote] = false ->
  token_of_match (mkMatch (neg_prefix neg) k v)
  = mkToken (toLowerCase k) v neg (neg_prefix neg ++ k ++ colon :: v).
Proof.
  intros H. unfold token_of_match, matched. cbn [g1 g2 g3].
  now rewrite negated_neg_prefix, H.
Qed.

(** The token of a quoted value: the quotes are stripped. *)
Lemma token_of_match_quoted neg k body :
  token_of_match (mkMatch (neg_prefix neg) k (dquote :: body ++ [dquote]))
  = mkToken (toLowerCase k) body neg
      (neg_prefix neg ++ k ++ colon :: dquote :: body ++ [dquote]).
Proof.
  unfold token_of_match, matched. cbn [g1 g2 g3].
  rewrite negated_neg_prefix, startsWith_head.
  change (dquote :: body ++ [dquote]) with ((dquote :: body) ++ [dquote]) at 1.
  rewrite endsWith_last. change (Ascii.eqb dquote dquote) with true.
  cbn [andb]. now rewrite slice_strip.
Qed.

(** ** Unterminated quotes *)











(** ** Totality of the parser *)








(** ** Key suggestions *)

Lemma fold_push_if {A B} (c : A -> bool) (h : A -> B) (l : list A) (acc : list B) :
  fold_left (fun acc x => if c x then push acc (h x) else acc) l acc
  = acc ++ map h (filter c l).
Proof.
  revert acc; induction l as [|x l IH]; intros acc; simpl.
  - now rewrite app_nil_r.
  - rewrite IH. destruct (c x); [|reflexivity].
    unfold push. simpl. now rewrite <- app_assoc.
Qed.

Lemma slice_all {A} (l : list A) (n : Z) :
  (Z.of_nat (length l) <= n)%Z -> slice l 0 n = l.
Proof.
  intros H. unfold slice, clamp_index. simpl.
  destruct (n <? 0)%Z eqn:E; [lia|].
  replace (Nat.min (Z.to_nat n) (length l)) with (length l) by lia.
  rewrite Nat.sub_0_r. apply firstn_all.
Qed.

Lemma startsWith_or_empty k p :
  startsWith k p || str_eqb p [] = startsWith k p.
Proof. destruct p; [destruct k; reflexivity | simpl; apply orb_false_r]. Qed.

(** C4, as the code has it: while the token under the cursor holds no
    colon, the suggestions are exactly the keys of [FILTER_KEYS] (group,
    scaler, creator, pipeline, is, in that order) that start with the
    lower-cased partial, each with the dash the user typed and a closing
    colon.  The key [generator] is not in [FILTER_KEYS] and is never
    suggested. *)
Theorem key_suggestions_from_filter_keys
    availableGroups availableScalers availableCreators availablePipelines
    currentUser input cursorPos :
  isKey (getCurrentToken input cursorPos) = true ->
  getSuggestions availableGroups availableScalers availableCreators
    availablePipelines currentUser input cursorPos
  = map (fun k =>
           let v := neg_prefix (isNegated (getCurrentToken input cursorPos))
                    ++ k ++ [colon] in
           mkSuggestion KeySuggestion None v v)
      (filter (fun k => startsWith k
                          (toLowerCase (partial (getCurrentToken input cursorPos))))
         FILTER_KEYS).
Proof.
  intros HK. unfold getSuggestions. cbv zeta. rewrite HK.
  unfold key_suggestions.
  rewrite (fold_push_if
             (fun k => startsWith k
                         (toLowerCase (partial (getCurrentToken input cursorPos)))
                       || str_eqb (toLowerCase (partial (getCurrentToken input cursorPos))) [])).
  cbn [app]. rewrite slice_all.
  - f_equal. apply filter_ext. intros k. apply startsWith_or_empty.
  - rewrite length_map.
    match goal with |- context [filter ?c ?l] =>
      pose proof (filter_length_le c l) as Hl end.
    change (length FILTER_KEYS) with 5 in Hl. lia.
Qed.

Lemma key_suggestions_from_filter_keys_witness :
  getSuggestions [lit "alpha"; lit "beta"] [] [] [] [] (lit "-gr") 3
  = map (fun k =>
           let v := neg_prefix (isNegated (getCurrentToken (lit "-gr") 3))
                    ++ k ++ [colon] in
           mkSuggestion KeySuggestion None v v)
      (filter (fun k => startsWith k
                          (toLowerCase (partial (getCurrentToken (lit "-gr") 3))))
         FILTER_KEYS).
Proof.
  apply (@key_suggestions_from_filter_keys
           [lit "alpha"; lit "beta"] [] [] [] [] (lit "-gr") 3).
  reflexivity.
Defined.

(** C4 at the example of the claim: with [gen] typed before the cursor the
    token is mid-key and [generator] starts with it, yet no suggestion is
    returned. *)
Lemma generator_key_not_suggested :
  isKey (getCurrentToken (lit "gen") 3) = true
  /\ startsWith (lit "generator")
       (toLowerCase (partial (getCurrentToken (lit "gen") 3))) = true
  /\ getSuggestions [lit "alpha"; lit "beta"] [] [] [] [] (lit "gen") 3 = []
  /\ ~ In (mkSuggestion KeySuggestion None (lit "generator:") (lit "generator:"))
          (getSuggestions [lit "alpha"; lit "beta"] [] [] [] [] (lit "gen") 3).
Proof.
  split; [reflexivity|]. split; [reflexivity|]. split; [reflexivity|].
  intros H. exact H.
Qed.

(** ** Free text: trimming and collapsing whitespace *)

Lemma normal_collapse b y : normal_from b y = true -> collapse_ws b y = y.
Proof.
  revert b; induction y as [|c y IH]; intros b; cbn [normal_from collapse_ws].
  - reflexivity.
  - destruct (is_space c) eqn:Ec.
    + intros H. apply andb_true_iff in H as [H Hy].
      apply andb_true_iff in H as [Hb Hc].
      apply negb_true_iff in Hb. subst b. apply Ascii.eqb_eq in Hc. subst c.
      now rewrite (IH true Hy).
    + intros H. now rewrite (IH false H).
Qed.

Lemma normal_trimEnd b y : normal_from b y = true -> trimEnd y = y.
Proof.
  revert b; induction y as [|c y IH]; intros b; cbn [normal_from trimEnd].
  - reflexivity.
  - destruct (is_space c) eqn:Ec.
    + intros H. apply andb_true_iff in H as [_ Hy].
      rewrite (IH true Hy). destruct y; [discriminate Hy | reflexivity].
    + intros H. rewrite (IH false H). destruct y; reflexivity.
Qed.

Lemma normal_trimStart y : normal_from true y = true -> trimStart y = y.
Proof.
  destruct y as [|c y]; [reflexivity|]. cbn [normal_from trimStart].
  destruct (is_space c); [discriminate | reflexivity].
Qed.

(** Free text in normal form is left as it is. *)
Lemma normal_fixed y : normal_from true y = true -> normalize_text y = y.
Proof.
  intros H. unfold normalize_text, trim.
  rewrite (@normal_trimStart y H), (@normal_trimEnd _ _ H).
  destruct y as [|c y]; [reflexivity|].
  pose proof (@normal_collapse _ _ H) as Hc.
  cbn [normal_from] in H. cbn [collapse_ws] in *.
  destruct (is_space c); [discriminate H | exact Hc].
Qed.

Lemma trimEnd_fixed s : trimEnd (trimEnd s) = trimEnd s.
Proof.
  induction s as [|c s IH]; [reflexivity|]. cbn [trimEnd].
  destruct (trimEnd s) as [|d t] eqn:E.
  - destruct (is_space c) eqn:Ec; [reflexivity|]. cbn [trimEnd]. now rewrite Ec.
  - cbn [trimEnd]. cbn [trimEnd] in IH. rewrite IH. reflexivity.
Qed.

Lemma trimEnd_tail c s :
  trimEnd (c :: s) = c :: s -> s = [] \/ (s <> [] /\ trimEnd s = s).
Proof.
  cbn [trimEnd]. destruct (trimEnd s) as [|d t] eqn:E.
  - destruct (is_space c); [discriminate|]. intros H; inversion H. now left.
  - intros H; inversion H; subst. right. split; [discriminate | reflexivity].
Qed.

Lemma trimEnd_not_space c s :
  trimEnd (c :: s) = c :: s -> is_space c = true -> s <> [] /\ trimEnd s = s.
Proof.
  cbn [trimEnd]. destruct (trimEnd s) as [|d t] eqn:E.
  - intros H Hc. rewrite Hc in H. discriminate.
  - intros H _; inversion H; subst. split; [discriminate | reflexivity].
Qed.

Lemma collapse_normal t :
  t <> [] -> trimEnd t = t ->
  forall b, normal_from b (collapse_ws b t) = true.
Proof.
  induction t as [|c t IH]; [congruence|]. intros _ Ht b.
  cbn [collapse_ws]. destruct (is_space c) eqn:Ec.
  - destruct (@trimEnd_not_space _ _ Ht Ec) as [Hne Ht'].
    destruct b.
    + now apply IH.
    + cbn [normal_from]. change (is_space space) with true. cbv iota.
      change (Ascii.eqb space space) with true. cbn [negb andb].
      now apply IH.
  - cbn [normal_from]. rewrite Ec.
    destruct (@trimEnd_tail _ _ Ht) as [-> | [Hne Ht']]; [reflexivity|].
    now apply IH.
Qed.

Lemma trimStart_head x c r : trimStart x = c :: r -> is_space c = false.
Proof.
  induction x as [|d x IH]; cbn [trimStart]; [discriminate|].
  destruct (is_space d) eqn:Ed; [exact IH|].
  intros H; inversion H; subst. exact Ed.
Qed.

Lemma trimEnd_head c r : is_space c = false -> exists r', trimEnd (c :: r) = c :: r'.
Proof.
  intros Hc. cbn [trimEnd]. destruct (trimEnd r) as [|d t].
  - rewrite Hc. now exists [].
  - now exists (d :: t).
Qed.

(** What [extractFreeText] returns is empty or in normal form. *)
Lemma normalize_normal x :
  normalize_text x = [] \/ normal_from true (normalize_text x) = true.
Proof.
  unfold normalize_text, trim.
  destruct (trimStart x) as [|c r] eqn:E; [now left|].
  pose proof (@trimStart_head _ _ _ E) as Hc.
  destruct (@trimEnd_head c r Hc) as [r' Hr].
  pose proof (trimEnd_fixed (c :: r)) as Hf. rewrite Hr in *.
  right.
  assert (H : collapse_ws false (c :: r') = collapse_ws true (c :: r')).
  { cbn [collapse_ws]. now rewrite Hc. }
  rewrite H. apply collapse_normal; [discriminate | exact Hf].
Qed.

(** Normalizing free text twice is normalizing it once. *)
Lemma normalize_idempotent x :
  normalize_text (normalize_text x) = normalize_text x.
Proof.
  destruct (normalize_normal x) as [H | H].
  - rewrite H. reflexivity.
  - now apply normal_fixed.
Qed.

Lemma normalize_spaces n x :
  normalize_text (repeat space n ++ x) = normalize_text x.
Proof.
  unfold normalize_text, trim. f_equal. f_equal.
  induction n as [|n IH]; [reflexivity|]. exact IH.
Qed.

(** ** Reading back what the serializer writes *)

Lemma bare_no_space v :
  forallb (fun c => negb (is_space c)) v = true -> includes v [space] = false.
Proof.
  induction v as [|c v IH]; [reflexivity|].
  cbn [forallb includes]. intros H. apply andb_true_iff in H as [Hc Hv].
  rewrite (IH Hv), orb_false_r.
  rewrite (@startsWith_head_char space c v).
  destruct (Ascii.eqb space c) eqn:E; [|reflexivity].
  apply Ascii.eqb_eq in E. subst c. discriminate Hc.
Qed.

Lemma bare_quote_if_space v : bare_ok v = true -> quote_if_space v = v.
Proof.
  unfold bare_ok, quote_if_space. intros H.
  apply andb_true_iff in H as [H _]. apply andb_true_iff in H as [_ H].
  now rewrite (bare_no_space v H).
Qed.

Lemma serializer_items (f : FilterState) :
  forallb bare_ok (scalers f) = true ->
  forallb bare_ok (excludeScalers f) = true ->
  filtersToQueryString f
  = join [space] (map render (items f) ++ search_part (search f)).
Proof.
  intros Hs Hes. rewrite serializer_parts. f_equal.
  unfold items. rewrite !map_app, !map_map, <- !app_assoc.
  assert (Hb : forall n k l, forallb bare_ok l = true ->
             map (fun v => neg_prefix n ++ k ++ colon :: v) l
             = map (fun v => render (mkItem n k v)) l).
  { intros n k l Hl. apply map_ext_in. intros v Hv.
    unfold render. cbn [it_neg it_key it_value].
    rewrite bare_quote_if_space; [reflexivity|].
    rewrite forallb_forall in Hl. now apply Hl. }
  apply f_equal2; [reflexivity|].
  apply f_equal2; [reflexivity|].
  apply f_equal2; [exact (Hb false (lit "scaler") _ Hs)|].
  apply f_equal2; [exact (Hb true (lit "scaler") _ Hes)|].
  apply f_equal2; [destruct (generator f) as [[|]|]; reflexivity|].
  apply f_equal2; [reflexivity|].
  apply f_equal2; [reflexivity|].
  apply f_equal2; [destruct (used f) as [[|]|]; reflexivity|].
  apply f_equal2; [reflexivity|].
  apply f_equal2; reflexivity.
Qed.

(** The tokenizer reads a rendered item back as its token, whatever
    follows it after the end of the input or a whitespace. *)
Lemma render_recognized it rest :
  item_ok it = true ->
  match rest with [] => True | c :: _ => is_space c = true end ->
  exists m, match_at (render it ++ rest) = Some (m, rest)
            /\ token_of_match m = item_token it.
Proof.
  destruct it as [n k v]. unfold item_ok, item_token, render.
  cbn [it_neg it_key it_value]. intros H Hrest.
  apply andb_true_iff in H as [H Hv]. apply andb_true_iff in H as [H Hlow].
  apply andb_true_iff in H as [Hne Hword]. apply str_eqb_eq in Hlow.
  assert (Hk : k <> []) by (destruct k; [discriminate Hne | discriminate]).
  unfold value_ok, quote_if_space in *.
  destruct (includes v [space]) eqn:Ei.
  - exists (mkMatch (neg_prefix n) k (dquote :: v ++ [dquote])). split.
    + pose proof (@match_at_intro n k (dquote :: v ++ [dquote]) rest Hk Hword
                    (match_value_quoted v rest Hv)) as Hm.
      rewrite <- Hm. f_equal. repeat (rewrite <- app_assoc; cbn [app]).
      reflexivity.
    + rewrite token_of_match_quoted, Hlow. reflexivity.
  - unfold bare_ok in Hv. apply andb_true_iff in Hv as [Hv Hq].
    apply andb_true_iff in Hv as [Hv1 Hv2]. apply negb_true_iff in Hq.
    assert (Hvn : v <> []) by (destruct v; [discriminate Hv1 | discriminate]).
    exists (mkMatch (neg_prefix n) k v). split.
    + pose proof (@match_at_intro n k v rest Hk Hword
                    (@match_value_bare v rest Hvn Hv2 Hrest
                       (@match_quoted_not_quote v rest Hq Hvn))) as Hm.
      rewrite <- Hm. f_equal. repeat (rewrite <- app_assoc; cbn [app]).
      reflexivity.
    + rewrite (token_of_match_bare n k v Hq), Hlow. reflexivity.
Qed.

Lemma regex_exec_space s :
  regex_exec (space :: s)
  = match regex_exec s with
    | Some (pre, m, rest) => Some (space :: pre, m, rest)
    | None => None
    end.
Proof. reflexivity. Qed.

Lemma scans_space s ms txt :
  scans s ms txt -> scans (space :: s) ms (space :: txt).
Proof.
  intros H. destruct H as [s E | s pre m rest ms txt E Hs].
  - apply scans_end. now rewrite regex_exec_space, E.
  - change (space :: pre ++ txt) with ((space :: pre) ++ txt).
    eapply scans_step; [|exact Hs]. now rewrite regex_exec_space, E.
Qed.

Lemma join_cons sep p q ps :
  join sep (p :: q :: ps) = p ++ sep ++ join sep (q :: ps).
Proof. reflexivity. Qed.

Lemma search_part_join srch : join [space] (search_part srch) = srch.
Proof. destruct srch; reflexivity. Qed.

(** The matches of a serialized state are its items, one after the other,
    and what is left between them is spaces before the free text. *)
Lemma scans_items its srch :
  forallb item_ok its = true ->
  no_token srch = true ->
  exists ms n,
    scans (join [space] (map render its ++ search_part srch)) ms
      (repeat space n ++ srch)
    /\ map token_of_match ms = map item_token its.
Proof.
  intros Hok Hsrch. induction its as [|it its IH].
  - exists [], 0. cbn [map app repeat]. rewrite search_part_join. split; [|reflexivity].
    apply scans_end. unfold no_token in Hsrch.
    destruct (regex_exec srch); [discriminate | reflexivity].
  - cbn [forallb] in Hok. apply andb_true_iff in Hok as [Hit Hok].
    destruct (IH Hok) as (ms & n & Hs & Htok). clear IH.
    cbn [map app].
    destruct (map render its ++ search_part srch) as [|q ps] eqn:Etail.
    + (* the item is the last part: no free text follows *)
      assert (srch = []) as ->.
      { destruct srch; [reflexivity|].
        destruct (map render its); discriminate Etail. }
      assert (its = []) as ->.
      { destruct its; [reflexivity | discriminate Etail]. }
      destruct (@render_recognized it [] Hit I) as (m & Hm & Ht).
      rewrite app_nil_r in Hm. apply regex_exec_here in Hm.
      exists [m], 0. split.
      * change (repeat space 0 ++ []) with (@nil ascii ++ []).
        cbn [join]. eapply scans_step; [exact Hm|].
        apply scans_end. reflexivity.
      * cbn [map]. now rewrite Ht.
    + rewrite join_cons.
      destruct (@render_recognized it ([space] ++ join [space] (q :: ps)) Hit
                  eq_refl) as (m & Hm & Ht).
      apply regex_exec_here in Hm.
      exists (m :: ms), (S n). split.
      * change (repeat space (S n) ++ srch)
          with ([] ++ space :: (repeat space n ++ srch)).
        eapply scans_step; [exact Hm|].
        cbn [app]. now apply scans_space.
      * cbn [map]. now rewrite Ht, Htok.
Qed.

(** ** Mapping the items of a state back to the state *)

Ltac apply_item :=
  unfold applyToken, item_token, push;
  cbn [key value negated raw it_neg it_key it_value];
  eval_lits; rewrite ?andb_false_r; reflexivity.

Ltac fold_items step :=
  let vs := fresh "vs" in
  let g := fresh "g" in
  let v := fresh "v" in
  let IH := fresh "IH" in
  intros vs; induction vs as [|v vs IH]; intros g; cbn [map fold_left];
  [ destruct g; cbn; now rewrite app_nil_r
  | rewrite step, IH; destruct g; cbn; now rewrite <- app_assoc ].

Lemma apply_group cu g v :
  applyToken cu g (item_token (mkItem false (lit "group") v))
  = set_groups g (groups g ++ [v]).
Proof. apply_item. Qed.

Lemma apply_excludeGroup cu g v :
  applyToken cu g (item_token (mkItem true (lit "group") v))
  = set_excludeGroups g (excludeGroups g ++ [v]).
Proof. apply_item. Qed.

Lemma apply_scaler cu g v :
  applyToken cu g (item_token (mkItem false (lit "scaler") v))
  = set_scalers g (scalers g ++ [v]).
Proof. apply_item. Qed.

Lemma apply_excludeScaler cu g v :
  applyToken cu g (item_token (mkItem true (lit "scaler") v))
  = set_excludeScalers g (excludeScalers g ++ [v]).
Proof. apply_item. Qed.

Lemma apply_creator g v :
  applyToken [] g (item_token (mkItem false (lit "creator") v))
  = set_creators g (creators g ++ [v]).
Proof. apply_item. Qed.

Lemma apply_excludeCreator g v :
  applyToken [] g (item_token (mkItem true (lit "creator") v))
  = set_excludeCreators g (excludeCreators g ++ [v]).
Proof. apply_item. Qed.

Lemma apply_pipeline cu g v :
  applyToken cu g (item_token (mkItem false (lit "pipeline") v))
  = set_pipelines g (pipelines g ++ [v]).
Proof. apply_item. Qed.

Lemma apply_excludePipeline cu g v :
  applyToken cu g (item_token (mkItem true (lit "pipeline") v))
  = set_excludePipelines g (excludePipelines g ++ [v]).
Proof. apply_item. Qed.

Lemma fold_groups cu : forall vs g,
  fold_left (applyToken cu) (map item_token (map (mkItem false (lit "group")) vs)) g
  = set_groups g (groups g ++ vs).
Proof. fold_items apply_group. Qed.

Lemma fold_excludeGroups cu : forall vs g,
  fold_left (applyToken cu) (map item_token (map (mkItem true (lit "group")) vs)) g
  = set_excludeGroups g (excludeGroups g ++ vs).
Proof. fold_items apply_excludeGroup. Qed.

Lemma fold_scalers cu : forall vs g,
  fold_left (applyToken cu) (map item_token (map (mkItem false (lit "scaler")) vs)) g
  = set_scalers g (scalers g ++ vs).
Proof. fold_items apply_scaler. Qed.

Lemma fold_excludeScalers cu : forall vs g,
  fold_left (applyToken cu) (map item_token (map (mkItem true (lit "scaler")) vs)) g
  = set_excludeScalers g (excludeScalers g ++ vs).
Proof. fold_items apply_excludeScaler. Qed.

Lemma fold_creators : forall vs g,
  fold_left (applyToken []) (map item_token (map (mkItem false (lit "creator")) vs)) g
  = set_creators g (creators g ++ vs).
Proof. fold_items apply_creator. Qed.

Lemma fold_excludeCreators : forall vs g,
  fold_left (applyToken []) (map item_token (map (mkItem true (lit "creator")) vs)) g
  = set_excludeCreators g (excludeCreators g ++ vs).
Proof. fold_items apply_excludeCreator. Qed.

Lemma fold_pipelines cu : forall vs g,
  fold_left (applyToken cu) (map item_token (map (mkItem false (lit "pipeline")) vs)) g
  = set_pipelines g (pipelines g ++ vs).
Proof. fold_items apply_pipeline. Qed.

Lemma fold_excludePipelines cu : forall vs g,
  fold_left (applyToken cu) (map item_token (map (mkItem true (lit "pipeline")) vs)) g
  = set_excludePipelines g (excludePipelines g ++ vs).
Proof. fold_items apply_excludePipeline. Qed.

Lemma fold_generator_items cu gen g :
  fold_left (applyToken cu) (map item_token (generator_items gen)) g
  = match gen with Some b => set_generator g (Some b) | None => g end.
Proof. destruct gen as [[|]|]; reflexivity. Qed.

Lemma fold_used_items cu u g :
  fold_left (applyToken cu) (map item_token (used_items u)) g
  = match u with Some b => set_used g (Some b) | None => g end.
Proof. destruct u as [[|]|]; reflexivity. Qed.

(** Mapping the tokens of the items of a state gives the state back. *)
Lemma tokensToFilters_items f :
  tokensToFilters (map item_token (items f)) (search f) [] = f.
Proof.
  unfold tokensToFilters, items.
  rewrite !map_app, !fold_left_app.
  rewrite fold_groups, fold_excludeGroups, fold_scalers, fold_excludeScalers,
    fold_generator_items, fold_creators, fold_excludeCreators, fold_used_items,
    fold_pipelines, fold_excludePipelines.
  destruct f as [s g eg sc esc gen c ec u p ep].
  destruct gen as [gen|], u as [u|]; reflexivity.
Qed.

Lemma search_applyToken cu f t : search (applyToken cu f t) = search f.
Proof.
  destruct t as [k v n r]. unfold applyToken. cbn [key value negated raw].
  key_is k "is"%string.
  - destruct (str_eqb (toLowerCase v) (lit "generator"));
      destruct (str_eqb (toLowerCase v) (lit "used"));
      destruct (str_eqb (toLowerCase v) (lit "orphan")); reflexivity.
  - key_is k "group"%string; [destruct n; reflexivity|].
    key_is k "scaler"%string; [destruct n; reflexivity|].
    key_is k "generator"%string.
    { destruct (array_includes _ _); [reflexivity|].
      destruct (array_includes _ _); reflexivity. }
    key_is k "creator"%string; [destruct n; reflexivity|].
    key_is k "pipeline"%string; [destruct n; reflexivity|].
    reflexivity.
Qed.

Lemma search_tokensToFilters tokens freeText cu :
  search (tokensToFilters tokens freeText cu) = freeText.
Proof.
  induction tokens as [|t tokens IH] using rev_ind; [reflexivity|].
  now rewrite tokensToFilters_snoc, search_applyToken.
Qed.

Lemma canonical_items f : canonical f = true -> forallb item_ok (items f) = true.
Proof.
  unfold canonical. intros H.
  apply andb_true_iff in H as [H _].
  apply andb_true_iff in H as [H Hep]. apply andb_true_iff in H as [H Hp].
  apply andb_true_iff in H as [H Hec]. apply andb_true_iff in H as [H Hc].
  apply andb_true_iff in H as [H Hes]. apply andb_true_iff in H as [H Hs].
  apply andb_true_iff in H as [Hg Heg].
  assert (Hmap : forall n k l, item_ok (mkItem n k (lit "x")) = true ->
             forallb value_ok l = true ->
             forallb item_ok (map (mkItem n k) l) = true).
  { intros n k l Hk Hl. rewrite forallb_forall in *. intros it Hit.
    apply in_map_iff in Hit as (v & <- & Hv). unfold item_ok in *.
    cbn [it_key it_value] in *. apply andb_true_iff in Hk as [Hk _].
    now rewrite Hk, (Hl v Hv). }
  assert (Hb : forall l, forallb bare_ok l = true -> forallb value_ok l = true).
  { intros l Hl. rewrite forallb_forall in *. intros v Hv.
    specialize (Hl v Hv). unfold value_ok.
    destruct (includes v [space]) eqn:E; [|exact Hl].
    unfold bare_ok in Hl. apply andb_true_iff in Hl as [Hl _].
    apply andb_true_iff in Hl as [_ Hl].
    now rewrite (bare_no_space v Hl) in E. }
  unfold items. rewrite !forallb_app.
  rewrite !Hmap; auto.
  destruct (generator f) as [[|]|], (used f) as [[|]|]; reflexivity.
Qed.

(** ** Round trips through the query string *)

(** Parsing what the serializer writes for a canonical state whose free
    text is normalized gives the state back. *)
Lemma serialize_then_parse f :
  canonical f = true ->
  normalize_text (search f) = search f ->
  parseQueryString (filtersToQueryString f) [] = Some f.
Proof.
  intros Hc Hn.
  pose proof (canonical_items f Hc) as Hitems.
  unfold canonical in Hc.
  apply andb_true_iff in Hc as [Hc Hsrch].
  apply andb_true_iff in Hc as [Hc _]. apply andb_true_iff in Hc as [Hc _].
  apply andb_true_iff in Hc as [Hc _]. apply andb_true_iff in Hc as [Hc _].
  apply andb_true_iff in Hc as [Hc Hes]. apply andb_true_iff in Hc as [_ Hs].
  rewrite (serializer_items f Hs Hes).
  destruct (scans_items (items f) (search f) Hitems Hsrch) as (ms & n & Hscan & Htok).
  rewrite (scans_parseQueryString [] Hscan).
  now rewrite Htok, normalize_spaces, Hn, tokensToFilters_items.
Qed.

Lemma parsed_search_normalized s cu f :
  parseQueryString s cu = Some f -> normalize_text (search f) = search f.
Proof.
  destruct (scans_total s) as (ms & txt & H).
  rewrite (scans_parseQueryString cu H). intros E; inversion E; subst.
  rewrite search_tokensToFilters. apply normalize_idempotent.
Qed.

(** C1, as the code has it: when the state [f] parsed from a query string
    is canonical (every group, creator and pipeline value is either free of
    double quotes, if it holds a space, or else non-empty, free of
    whitespace and not opening with a double quote; every scaler value is of
    the second kind; the free text holds no token), parsing the
    serialization of [f] yields [f] itself, field by field and in the same
    order. *)
Theorem parse_serialize_parse s f :
  parseQueryString s [] = Some f ->
  canonical f = true ->
  parseQueryString (filtersToQueryString f) [] = Some f.
Proof.
  intros Hp Hc. apply serialize_then_parse; [exact Hc|].
  exact (parsed_search_normalized s [] Hp).
Qed.

Lemma parse_serialize_parse_witness :
  let s := lit "group:alpha -group:beta is:generator free   text " in
  let f := mkFilterState (lit "free text") [lit "alpha"] [lit "beta"] [] []
             (Some true) [] [] None [] [] in
  parseQueryString s [] = Some f
  /\ canonical f = true
  /\ parseQueryString (filtersToQueryString f) [] = Some f.
Proof.
  split; [reflexivity|]. split; [reflexivity|].
  apply (@parse_serialize_parse
           (lit "group:alpha -group:beta is:generator free   text ")
           (mkFilterState (lit "free text") [lit "alpha"] [lit "beta"] [] []
              (Some true) [] [] None [] []));
    reflexivity.
Defined.

(** C1 at a group with an empty quoted value, group:QQ with Q the double
    quote: the first parse has the one group whose name is empty; it is
    serialized as the text group: with nothing after the colon, which holds
    no token, so the second parse has no group and that text as its search. *)
Lemma roundtrip_counterexample :
  let s := lit "group:" ++ [dquote; dquote] in
  let f := set_groups DEFAULT_FILTER_STATE [[]] in
  let f' := set_search DEFAULT_FILTER_STATE (lit "group:") in
  parseQueryString s [] = Some f
  /\ filtersToQueryString f = lit "group:"
  /\ parseQueryString (filtersToQueryString f) [] = Some f'
  /\ ~ fs_equiv f' f.
Proof.
  split; [reflexivity|]. split; [reflexivity|]. split; [reflexivity|].
  intros [H _]. discriminate H.
Qed.

(** ** Further properties of the tokenizer *)

Lemma scans_weave s ms txt :
  scans s ms txt ->
  exists gaps,
    length gaps = S (length ms)
    /\ weave gaps (map matched ms) = s
    /\ concat gaps = txt.
Proof.
  induction 1 as [s E | s pre m rest ms txt E Hs (gaps & Hl & Hw & Hc)].
  - exists [s]. cbn. now rewrite app_nil_r.
  - exists (pre :: gaps). split; [cbn; now rewrite Hl|]. split.
    + cbn [map].
      change (weave (pre :: gaps) (matched m :: map matched ms))
        with (pre ++ matched m ++ weave gaps (map matched ms)).
      rewrite Hw. symmetry. now apply regex_exec_split.
    + cbn [concat]. now rewrite Hc.
Qed.

Lemma raw_token_of_match ms :
  map raw (map token_of_match ms) = map matched ms.
Proof. rewrite map_map. reflexivity. Qed.

(** X1: the tokenizer loses nothing: the input is the text between the tokens
    interleaved with the raw text of the tokens, in order, and the text
    [replace] keeps is the concatenation of the text between them. *)
Theorem tokens_and_gaps_rebuild_input input :
  exists tokens gaps,
    parseInput input = Some tokens
    /\ remove_tokens input = Some (concat gaps)
    /\ length gaps = S (length tokens)
    /\ weave gaps (map raw tokens) = input.
Proof.
  destruct (scans_total input) as (ms & txt & H).
  destruct (scans_weave H) as (gaps & Hl & Hw & Hc).
  exists (map token_of_match ms), gaps.
  split; [exact (scans_parseInput H)|]. split; [|split].
  - unfold remove_tokens. rewrite (scans_replace_loop H (le_n _)). now rewrite Hc.
  - now rewrite length_map.
  - now rewrite raw_token_of_match.
Qed.

(** X2: the free text the tokenizer returns is normalized: it is empty, or it
    neither starts nor ends with whitespace and its only whitespace is
    single spaces; normalizing it again changes nothing. *)
Theorem free_text_is_normalized input :
  exists text,
    extractFreeText input = Some text
    /\ (text = [] \/ normal_from true text = true)
    /\ normalize_text text = text.
Proof.
  destruct (scans_total input) as (ms & txt & H).
  exists (normalize_text txt). split; [exact (scans_extractFreeText H)|].
  split; [apply normalize_normal | apply normalize_idempotent].
Qed.

Lemma regex_exec_colon s pre m rest :
  regex_exec s = Some (pre, m, rest) -> In colon s.
Proof.
  intros H. apply regex_exec_split in H. subst s. unfold matched.
  rewrite !in_app_iff. right. left. right. right. now left.
Qed.

Lemma no_colon_no_match s :
  forallb (fun c => negb (Ascii.eqb c colon)) s = true -> regex_exec s = None.
Proof.
  intros H. destruct (regex_exec s) as [[[pre m] rest]|] eqn:E; [|reflexivity].
  apply regex_exec_colon in E. rewrite forallb_forall in H.
  specialize (H colon E). discriminate H.
Qed.

(** X3: text without a colon holds no token: it is free text as a whole, and
    the parsed state has that text, normalized, as its search and no other
    filter. *)
Theorem text_without_colon_is_free_text input :
  forallb (fun c => negb (Ascii.eqb c colon)) input = true ->
  parseInput input = Some []
  /\ extractFreeText input = Some (normalize_text input)
  /\ forall currentUser,
       parseQueryString input currentUser
       = Some (set_search DEFAULT_FILTER_STATE (normalize_text input)).
Proof.
  intros H. pose proof (scans_end _ (no_colon_no_match input H)) as Hs.
  split; [exact (scans_parseInput Hs)|].
  split; [exact (scans_extractFreeText Hs)|].
  intros cu. exact (scans_parseQueryString cu Hs).
Qed.

Lemma text_without_colon_is_free_text_witness :
  parseInput (lit "  free   text ") = Some []
  /\ extractFreeText (lit "  free   text ")
     = Some (normalize_text (lit "  free   text "))
  /\ forall currentUser,
       parseQueryString (lit "  free   text ") currentUser
       = Some (set_search DEFAULT_FILTER_STATE
                 (normalize_text (lit "  free   text "))).
Proof.
  apply (@text_without_colon_is_free_text (lit "  free   text ")). reflexivity.
Defined.

Lemma space_not_colon c : is_space c = true -> negb (Ascii.eqb c colon) = true.
Proof.
  intros H. destruct (Ascii.eqb c colon) eqn:E; [|reflexivity].
  apply Ascii.eqb_eq in E. subst c. discriminate H.
Qed.

Lemma trimStart_blank s : forallb is_space s = true -> trimStart s = [].
Proof.
  induction s as [|c s IH]; [reflexivity|]. cbn [forallb trimStart].
  intros H. apply andb_true_iff in H as [Hc Hs]. rewrite Hc. now apply IH.
Qed.

(** X4: a query string of whitespace only, the empty one included, restores
    the empty state. *)
Theorem blank_query_is_empty_state queryString currentUser :
  forallb is_space queryString = true ->
  parseQueryString queryString currentUser = Some DEFAULT_FILTER_STATE.
Proof.
  intros H.
  assert (Hc : forallb (fun c => negb (Ascii.eqb c colon)) queryString = true).
  { rewrite forallb_forall in *. intros c Hin. apply space_not_colon. now apply H. }
  pose proof (scans_end _ (no_colon_no_match queryString Hc)) as Hs.
  rewrite (scans_parseQueryString currentUser Hs).
  unfold normalize_text, trim. now rewrite (trimStart_blank queryString H).
Qed.

Lemma blank_query_is_empty_state_witness :
  parseQueryString (lit "   ") (lit "alice") = Some DEFAULT_FILTER_STATE.
Proof.
  apply (@blank_query_is_empty_state (lit "   ") (lit "alice")). reflexivity.
Defined.

(** ** Further properties of the mapper *)

Lemma fold_known_keys cu tokens : forall f,
  fold_left (applyToken cu) (filter (fun t => known_key (key t)) tokens) f
  = fold_left (applyToken cu) tokens f.
Proof.
  induction tokens as [|t tokens IH]; intros f; [reflexivity|].
  cbn [filter fold_left]. destruct (known_key (key t)) eqn:E.
  - cbn [fold_left]. apply IH.
  - rewrite (applyToken_unknown cu f t E). apply IH.
Qed.

(** X5: tokens whose key is none of group, scaler, is, generator, creator and
    pipeline are dropped: removing them from the token list does not change
    the state the mapper builds. *)
Theorem unknown_keys_are_dropped tokens freeText currentUser :
  tokensToFilters (filter (fun t => known_key (key t)) tokens) freeText currentUser
  = tokensToFilters tokens freeText currentUser.
Proof. unfold tokensToFilters. apply fold_known_keys. Qed.

Lemma seq_field_fold (F : FilterState -> list jsstring)
    (c : ParsedToken -> bool) (h : ParsedToken -> jsstring) cu :
  (forall f t, F (applyToken cu f t) = F f ++ (if c t then [h t] else [])) ->
  forall tokens f,
    F (fold_left (applyToken cu) tokens f) = F f ++ map h (filter c tokens).
Proof.
  intros Hstep tokens. induction tokens as [|t tokens IH] using rev_ind; intros f.
  - cbn. now rewrite app_nil_r.
  - rewrite fold_left_app, filter_app, map_app. cbn [fold_left filter].
    rewrite Hstep, IH, <- app_assoc. f_equal. f_equal.
    destruct (c t); reflexivity.
Qed.

(** One step of the mapper on one sequence field. *)
Ltac seq_step :=
  let k := fresh "k" in
  let v := fresh "v" in
  let n := fresh "n" in
  let r := fresh "r" in
  intros ? [k v n r]; unfold applyToken, expand_me, push;
  cbn [key value negated raw];
  key_is k "is"%string;
  [ destruct (str_eqb (toLowerCase v) (lit "generator"));
    destruct (str_eqb (toLowerCase v) (lit "used"));
    destruct (str_eqb (toLowerCase v) (lit "orphan"));
    cbn; now rewrite ?app_nil_r | ];
  key_is k "group"%string; [destruct n; cbn; now rewrite ?app_nil_r|];
  key_is k "scaler"%string; [destruct n; cbn; now rewrite ?app_nil_r|];
  key_is k "generator"%string;
  [ destruct (array_includes _ _);
    [|destruct (array_includes _ _)]; cbn; now rewrite ?app_nil_r | ];
  key_is k "creator"%string; [destruct n; cbn; now rewrite ?app_nil_r|];
  key_is k "pipeline"%string; [destruct n; cbn; now rewrite ?app_nil_r|];
  repeat match goal with H : str_eqb k _ = false |- _ => rewrite H; clear H end;
  cbn; now rewrite ?app_nil_r.

Lemma groups_step cu : forall f t,
  groups (applyToken cu f t)
  = groups f ++ (if str_eqb (key t) (lit "group") && Bool.eqb (negated t) false
                 then [value t] else []).
Proof. seq_step. Qed.

Lemma excludeGroups_step cu : forall f t,
  excludeGroups (applyToken cu f t)
  = excludeGroups f ++ (if str_eqb (key t) (lit "group") && Bool.eqb (negated t) true
                        then [value t] else []).
Proof. seq_step. Qed.

Lemma scalers_step cu : forall f t,
  scalers (applyToken cu f t)
  = scalers f ++ (if str_eqb (key t) (lit "scaler") && Bool.eqb (negated t) false
                  then [value t] else []).
Proof. seq_step. Qed.

Lemma excludeScalers_step cu : forall f t,
  excludeScalers (applyToken cu f t)
  = excludeScalers f ++ (if str_eqb (key t) (lit "scaler") && Bool.eqb (negated t) true
                         then [value t] else []).
Proof. seq_step. Qed.

Lemma creators_step cu : forall f t,
  creators (applyToken cu f t)
  = creators f ++ (if str_eqb (key t) (lit "creator") && Bool.eqb (negated t) false
                   then [expand_me cu (value t)] else []).
Proof. seq_step. Qed.

Lemma excludeCreators_step cu : forall f t,
  excludeCreators (applyToken cu f t)
  = excludeCreators f ++ (if str_eqb (key t) (lit "creator") && Bool.eqb (negated t) true
                          then [expand_me cu (value t)] else []).
Proof. seq_step. Qed.

Lemma pipelines_step cu : forall f t,
  pipelines (applyToken cu f t)
  = pipelines f ++ (if str_eqb (key t) (lit "pipeline") && Bool.eqb (negated t) false
                    then [value t] else []).
Proof. seq_step. Qed.

Lemma excludePipelines_step cu : forall f t,
  excludePipelines (applyToken cu f t)
  = excludePipelines f ++ (if str_eqb (key t) (lit "pipeline") && Bool.eqb (negated t) true
                           then [value t] else []).
Proof. seq_step. Qed.

(** X6: each sequence of the state the mapper builds holds the values of the
    tokens of its key and polarity, in the order of the tokens and with their
    duplicates (creators with [@me] expanded); the search is the free text
    it was given. *)
Theorem sequences_follow_token_order tokens freeText currentUser :
  let f := tokensToFilters tokens freeText currentUser in
  search f = freeText
  /\ groups f = token_values (lit "group") false tokens
  /\ excludeGroups f = token_values (lit "group") true tokens
  /\ scalers f = token_values (lit "scaler") false tokens
  /\ excludeScalers f = token_values (lit "scaler") true tokens
  /\ creators f
     = map (expand_me currentUser) (token_values (lit "creator") false tokens)
  /\ excludeCreators f
     = map (expand_me currentUser) (token_values (lit "creator") true tokens)
  /\ pipelines f = token_values (lit "pipeline") false tokens
  /\ excludePipelines f = token_values (lit "pipeline") true tokens.
Proof.
  cbv zeta. unfold tokensToFilters, token_values.
  split; [apply search_tokensToFilters|].
  rewrite (@seq_field_fold groups _ value currentUser (groups_step currentUser)).
  rewrite (@seq_field_fold excludeGroups _ value currentUser (excludeGroups_step currentUser)).
  rewrite (@seq_field_fold scalers _ value currentUser (scalers_step currentUser)).
  rewrite (@seq_field_fold excludeScalers _ value currentUser (excludeScalers_step currentUser)).
  rewrite (@seq_field_fold creators _ (fun t => expand_me currentUser (value t))
             currentUser (creators_step currentUser)).
  rewrite (@seq_field_fold excludeCreators _ (fun t => expand_me currentUser (value t))
             currentUser (excludeCreators_step currentUser)).
  rewrite (@seq_field_fold pipelines _ value currentUser (pipelines_step currentUser)).
  rewrite (@seq_field_fold excludePipelines _ value currentUser (excludePipelines_step currentUser)).
  rewrite !map_map. cbn. repeat split; reflexivity.
Qed.

(** ** The shape of tokens *)

Lemma lower_char_word c :
  is_word c = true ->
  is_word (lower_char c) = true /\ lower_char (lower_char c) = lower_char c.
Proof.
  destruct c as [b0 b1 b2 b3 b4 b5 b6 b7].
  destruct b0, b1, b2, b3, b4, b5, b6, b7; intros H;
    solve [discriminate H | split; reflexivity].
Qed.

Lemma toLowerCase_word k :
  forallb is_word k = true ->
  forallb is_word (toLowerCase k) = true
  /\ toLowerCase (toLowerCase k) = toLowerCase k.
Proof.
  induction k as [|c k IH]; [split; reflexivity|].
  cbn [forallb toLowerCase map]. intros H. apply andb_true_iff in H as [Hc Hk].
  destruct (lower_char_word c Hc) as [H1 H2]. destruct (IH Hk) as [H3 H4].
  fold (toLowerCase k). split.
  - now rewrite H1, H3.
  - unfold toLowerCase in *. now rewrite H2, H4.
Qed.

(** What the pattern captures: an empty or one-dash prefix, a non-empty
    key of word characters, a non-empty value. *)
Lemma match_at_groups s m rest :
  match_at s = Some (m, rest) ->
  (exists neg, g1 m = neg_prefix neg)
  /\ g2 m <> [] /\ forallb is_word (g2 m) = true /\ g3 m <> [].
Proof.
  unfold match_at.
  set (pr := match s with
             | c :: s' => if Ascii.eqb c dash then ([dash], s') else ([], s)
             | [] => ([], [])
             end).
  assert (Hpr : exists neg, fst pr = neg_prefix neg).
  { subst pr. destruct s as [|c s]; [now exists false|].
    destruct (Ascii.eqb c dash); [now exists true | now exists false]. }
  destruct pr as [neg s1]. cbn [fst] in Hpr.
  destruct (span is_word s1) as [k s2] eqn:Ek.
  destruct k as [|k0 k]; [discriminate|].
  destruct s2 as [|c s3]; [discriminate|].
  destruct (Ascii.eqb c colon); [|discriminate].
  destruct (match_value s3) as [[v r]|] eqn:Ev; [|discriminate].
  intros E; inversion E; subst. cbn [g1 g2 g3].
  split; [exact Hpr|]. split; [discriminate|]. split.
  - exact (span_forall _ _ Ek).
  - now apply match_value_split in Ev.
Qed.

Lemma regex_exec_groups s pre m rest :
  regex_exec s = Some (pre, m, rest) ->
  (exists neg, g1 m = neg_prefix neg)
  /\ g2 m <> [] /\ forallb is_word (g2 m) = true /\ g3 m <> [].
Proof.
  revert pre; induction s as [|c s IH]; intros pre; cbn [regex_exec].
  - destruct (match_at []) as [[m' r']|] eqn:E; [|discriminate].
    intros H; inversion H; subst. now apply match_at_groups in E.
  - destruct (match_at (c :: s)) as [[m' r']|] eqn:E.
    + intros H; inversion H; subst. now apply match_at_groups in E.
    + destruct (regex_exec s) as [[[p' m'] r']|]; [|discriminate].
      intros H; inversion H; subst. now apply (IH p').
Qed.

Lemma endsWith_quote v :
  endsWith v [dquote] = true -> exists w, v = w ++ [dquote].
Proof.
  destruct v as [|a v]; [discriminate|].
  destruct (exists_last (l := a :: v)) as (w & x & E); [discriminate|].
  rewrite E, endsWith_last. intros H. apply Ascii.eqb_eq in H. subst x.
  now exists w.
Qed.

(** The value of a token is the captured value, or the captured value
    without its two quotes, or empty for a captured lone quote. *)
Lemma token_value_cases m :
  value (token_of_match m) = g3 m
  \/ g3 m = dquote :: value (token_of_match m) ++ [dquote]
  \/ (g3 m = [dquote] /\ value (token_of_match m) = []).
Proof.
  unfold token_of_match. cbn [value].
  destruct (startsWith (g3 m) [dquote] && endsWith (g3 m) [dquote]) eqn:E;
    [|now left].
  apply andb_true_iff in E as [Hs He].
  destruct (g3 m) as [|a v]; [discriminate Hs|].
  rewrite startsWith_head in Hs. apply Ascii.eqb_eq in Hs. subst a.
  destruct v as [|b v].
  - right. right. split; reflexivity.
  - right. left. destruct (endsWith_quote _ He) as [w Hw].
    destruct (exists_last (l := b :: v)) as (w' & x & E); [discriminate|].
    rewrite E in *. change (dquote :: w' ++ [x]) with ((dquote :: w') ++ [x]) in Hw.
    apply app_inj_tail in Hw as [_ ->].
    now rewrite slice_strip.
Qed.

Lemma token_of_match_shape m :
  (exists neg, g1 m = neg_prefix neg) ->
  g2 m <> [] -> forallb is_word (g2 m) = true -> g3 m <> [] ->
  let t := token_of_match m in
  key t <> []
  /\ forallb is_word (key t) = true
  /\ toLowerCase (key t) = key t
  /\ negated t = startsWith (raw t) [dash]
  /\ exists k v,
       raw t = neg_prefix (negated t) ++ k ++ colon :: v
       /\ key t = toLowerCase k
       /\ v <> []
       /\ (value t = v \/ v = dquote :: value t ++ [dquote]
           \/ (v = [dquote] /\ value t = [])).
Proof.
  intros [neg Hneg] Hk Hw Hv t.
  destruct (toLowerCase_word _ Hw) as [Hw1 Hw2].
  assert (Hn : negated t = neg).
  { subst t. unfold token_of_match. cbn [negated]. rewrite Hneg.
    apply negated_neg_prefix. }
  assert (Hraw : raw t = neg_prefix neg ++ g2 m ++ colon :: g3 m).
  { subst t. unfold token_of_match, matched. cbn [raw]. now rewrite Hneg. }
  split; [|split; [|split; [|split]]].
  - subst t. unfold token_of_match. cbn [key].
    destruct (g2 m); [congruence | discriminate].
  - exact Hw1.
  - exact Hw2.
  - rewrite Hn, Hraw. destruct neg.
    { cbn [neg_prefix app]. now rewrite (@startsWith_head_char dash dash _). }
    destruct (g2 m) as [|c k]; [congruence|].
    cbn [neg_prefix app]. rewrite (@startsWith_head_char dash c _).
    cbn [forallb] in Hw. apply andb_true_iff in Hw as [Hc _].
    rewrite Ascii.eqb_sym. symmetry. now apply word_not_dash.
  - exists (g2 m), (g3 m). rewrite Hn.
    split; [exact Hraw|]. split; [reflexivity|]. split; [exact Hv|].
    apply token_value_cases.
Qed.

Lemma scans_shape s ms txt :
  scans s ms txt ->
  Forall (fun m => (exists neg, g1 m = neg_prefix neg)
                   /\ g2 m <> [] /\ forallb is_word (g2 m) = true /\ g3 m <> []) ms.
Proof.
  induction 1 as [s E | s pre m rest ms txt E Hs IH]; constructor.
  - exact (regex_exec_groups _ E).
  - exact IH.
Qed.

(** X7: every token of the tokenizer is well formed: its key is a non-empty
    lower-case word; it is negated exactly when its raw text opens with a
    dash; its raw text is the dash if any, the key as typed, a colon and a
    non-empty value text; and its value is that text, with its surrounding
    double quotes removed if it has them. *)
Theorem tokens_are_well_formed input :
  exists tokens,
    parseInput input = Some tokens
    /\ Forall (fun t =>
         key t <> []
         /\ forallb is_word (key t) = true
         /\ toLowerCase (key t) = key t
         /\ negated t = startsWith (raw t) [dash]
         /\ exists k v,
              raw t = neg_prefix (negated t) ++ k ++ colon :: v
              /\ key t = toLowerCase k
              /\ v <> []
              /\ (value t = v \/ v = dquote :: value t ++ [dquote]
                  \/ (v = [dquote] /\ value t = []))) tokens.
Proof.
  destruct (scans_total input) as (ms & txt & H).
  exists (map token_of_match ms). split; [exact (scans_parseInput H)|].
  apply Forall_map. pose proof (scans_shape H) as Hsh.
  eapply Forall_impl; [|exact Hsh].
  intros m (H1 & H2 & H3 & H4). now apply token_of_match_shape.
Qed.

(** ** Further properties of the suggestion engine *)

Lemma slice_length_le {A} (l : list A) (n : nat) :
  length (slice l 0 (Z.of_nat n)) <= n.
Proof.
  unfold slice, clamp_index. cbn [Z.ltb Z.compare].
  destruct (Z.of_nat n <? 0)%Z eqn:E; [lia|].
  rewrite length_firstn. change (Nat.min (Z.to_nat 0) (length l)) with 0. lia.
Qed.

(** X8: at most ten suggestions are returned, whatever the input, the cursor
    and the known values. *)
Theorem suggestions_are_capped
    availableGroups availableScalers availableCreators availablePipelines
    currentUser input cursorPos :
  length (getSuggestions availableGroups availableScalers availableCreators
            availablePipelines currentUser input cursorPos) <= 10.
Proof. unfold getSuggestions. cbv zeta. apply (slice_length_le _ 10). Qed.

Lemma slice_nil {A} (from to : Z) : slice (@nil A) from to = [].
Proof. unfold slice. rewrite skipn_nil. apply firstn_nil. Qed.

(** X9: after a colon, a key the engine has no values for (any key other than
    group, scaler, is, creator, pipeline and generator, the empty key
    included) yields no suggestion. *)
Theorem no_suggestions_for_unknown_key
    availableGroups availableScalers availableCreators availablePipelines
    currentUser input cursorPos k :
  isKey (getCurrentToken input cursorPos) = false ->
  ctx_key (getCurrentToken input cursorPos) = Some k ->
  known_key k = false ->
  getSuggestions availableGroups availableScalers availableCreators
    availablePipelines currentUser input cursorPos = [].
Proof.
  intros HK Hk Hun. unfold getSuggestions. cbv zeta. rewrite HK, Hk.
  destruct (truthy k); [|apply slice_nil].
  unfold known_key, array_includes in Hun. cbn [existsb] in Hun.
  rewrite orb_false_r in Hun.
  repeat (apply orb_false_iff in Hun; destruct Hun as [? Hun]).
  unfold value_suggestions.
  repeat match goal with H : str_eqb k ?x = false |- _ => rewrite H; clear H end.
  apply slice_nil.
Qed.

Lemma no_suggestions_for_unknown_key_witness :
  getSuggestions [lit "alpha"] [lit "K8s"] [] [] [] (lit "x foo:ba") 8 = [].
Proof.
  apply (@no_suggestions_for_unknown_key [lit "alpha"] [lit "K8s"] [] [] []
           (lit "x foo:ba") 8 (lit "foo")); reflexivity.
Defined.

(** ** Further properties of the omnibar component *)

Lemma inactive_default (f : FilterState) :
  hasActiveFilters f = false <-> f = DEFAULT_FILTER_STATE.
Proof.
  split.
  - destruct f as [s g eg sc esc gen c ec u p ep].
    unfold hasActiveFilters.
    cbn [search groups excludeGroups scalers excludeScalers generator creators
         excludeCreators used pipelines excludePipelines].
    intros H. repeat (apply orb_false_iff in H; destruct H as [H ?]).
    destruct s; [|easy]. destruct g; [|easy]. destruct eg; [|easy].
    destruct sc; [|easy]. destruct esc; [|easy]. destruct gen; [easy|].
    destruct c; [|easy]. destruct ec; [|easy]. destruct u; [easy|].
    destruct p; [|easy]. destruct ep; [|easy].
    reflexivity.
  - intros ->. reflexivity.
Qed.

(** X10: no filter is active exactly in the empty state. *)
Theorem inactive_iff_default (f : FilterState) :
  hasActiveFilters f = false <-> f = DEFAULT_FILTER_STATE.
Proof. exact (inactive_default f). Qed.

Lemma active_count_zero f : hasActiveFilters f = false <-> active_count f = 0.
Proof.
  split.
  - intros H. apply inactive_default in H. subst f. reflexivity.
  - intros H. apply inactive_default.
    destruct f as [s g eg sc esc gen c ec u p ep].
    unfold active_count in H.
    cbn [search groups excludeGroups scalers excludeScalers generator creators
         excludeCreators used pipelines excludePipelines] in H.
    destruct s; [|cbn in H; lia]. destruct g; [|cbn in H; lia].
    destruct eg; [|cbn in H; lia]. destruct sc; [|cbn in H; lia].
    destruct esc; [|cbn in H; lia]. destruct gen; [cbn in H; lia|].
    destruct c; [|cbn in H; lia]. destruct ec; [|cbn in H; lia].
    destruct u; [cbn in H; lia|]. destruct p; [|cbn in H; lia].
    destruct ep; [|cbn in H; lia].
    reflexivity.
Qed.

Lemma removeLastFilter_count f :
  hasActiveFilters f = true ->
  active_count (removeLastFilter f) + 1 = active_count f.
Proof.
  destruct f as [s g eg sc esc gen c ec u p ep].
  unfold hasActiveFilters, removeLastFilter, active_count.
  unfold set_search, set_used, set_generator, set_pipelines, set_excludePipelines,
    set_creators, set_excludeCreators, set_scalers, set_excludeScalers,
    set_groups, set_excludeGroups.
  cbn [search groups excludeGroups scalers excludeScalers generator creators
       excludeCreators used pipelines excludePipelines].
  destruct s; [|intros _; cbn; lia].
  destruct u; [intros _; cbn; lia|].
  destruct gen; [intros _; cbn; lia|].
  cbn [truthy is_set b2n].
  destruct (nonempty ep) eqn:E1;
    [destruct (nonempty_last ep E1) as (l & x & ->); rewrite slice_pop;
     intros _; cbn; rewrite !length_app; cbn; lia|].
  destruct (nonempty p) eqn:E2;
    [destruct (nonempty_last p E2) as (l & x & ->); rewrite slice_pop;
     intros _; cbn; rewrite !length_app; cbn; lia|].
  destruct (nonempty ec) eqn:E3;
    [destruct (nonempty_last ec E3) as (l & x & ->); rewrite slice_pop;
     intros _; cbn; rewrite !length_app; cbn; lia|].
  destruct (nonempty c) eqn:E4;
    [destruct (nonempty_last c E4) as (l & x & ->); rewrite slice_pop;
     intros _; cbn; rewrite !length_app; cbn; lia|].
  destruct (nonempty esc) eqn:E5;
    [destruct (nonempty_last esc E5) as (l & x & ->); rewrite slice_pop;
     intros _; cbn; rewrite !length_app; cbn; lia|].
  destruct (nonempty sc) eqn:E6;
    [destruct (nonempty_last sc E6) as (l & x & ->); rewrite slice_pop;
     intros _; cbn; rewrite !length_app; cbn; lia|].
  destruct (nonempty eg) eqn:E7;
    [destruct (nonempty_last eg E7) as (l & x & ->); rewrite slice_pop;
     intros _; cbn; rewrite !length_app; cbn; lia|].
  destruct (nonempty g) eqn:E8;
    [destruct (nonempty_last g E8) as (l & x & ->); rewrite slice_pop;
     intros _; cbn; rewrite !length_app; cbn; lia|].
  discriminate.
Qed.

Lemma iter_removeLastFilter n : forall f,
  active_count f = n ->
  Nat.iter n removeLastFilter f = DEFAULT_FILTER_STATE
  /\ forall k, k < n -> hasActiveFilters (Nat.iter k removeLastFilter f) = true.
Proof.
  induction n as [|n IH]; intros f Hn.
  - split; [|intros k Hk; lia]. cbn. apply inactive_default.
    now apply active_count_zero.
  - assert (Ha : hasActiveFilters f = true).
    { destruct (hasActiveFilters f) eqn:E; [reflexivity|].
      apply active_count_zero in E. lia. }
    pose proof (removeLastFilter_count f Ha) as Hc.
    destruct (IH (removeLastFilter f) ltac:(lia)) as [H1 H2].
    assert (Hshift : forall k g, Nat.iter k removeLastFilter (removeLastFilter g)
                                 = Nat.iter (S k) removeLastFilter g).
    { intros k g. induction k as [|k IHk]; [reflexivity|].
      cbn [Nat.iter nat_rect] in *. unfold Nat.iter in *. cbn. now rewrite IHk. }
    split.
    + rewrite <- Hshift. exact H1.
    + intros [|k] Hk; [exact Ha|]. rewrite <- Hshift. apply H2. lia.
Qed.

(** X11: backspacing on an empty input box removes the filters one at a time:
    after as many key presses as there are active filters the state is
    empty, and not before. *)
Theorem backspace_clears_in_count_steps (f : FilterState) :
  Nat.iter (active_count f) removeLastFilter f = DEFAULT_FILTER_STATE
  /\ forall k, k < active_count f ->
       handleBackspace [] (Nat.iter k removeLastFilter f)
       = Some (Nat.iter (S k) removeLastFilter f).
Proof.
  destruct (iter_removeLastFilter f eq_refl) as [H1 H2].
  split; [exact H1|]. intros k Hk. unfold handleBackspace.
  rewrite (H2 k Hk). reflexivity.
Qed.





(** ** The query string of a state *)

Lemma join_nil_head sep p ps : join sep (p :: ps) = [] -> p = [].
Proof.
  cbn [join]. destruct ps; [auto|]. intros H. now apply app_eq_nil in H.
Qed.

Lemma empty_query_inactive (f : FilterState) :
  filtersToQueryString f = [] <-> hasActiveFilters f = false.
Proof.
  split.
  - rewrite serializer_parts. intros H. apply inactive_default.
    destruct f as [s g eg sc esc gen c ec u p ep].
    cbn [search groups excludeGroups scalers excludeScalers generator creators
         excludeCreators used pipelines excludePipelines] in H.
    destruct g; [|apply join_nil_head in H; discriminate H].
    destruct eg; [|apply join_nil_head in H; discriminate H].
    destruct sc; [|apply join_nil_head in H; discriminate H].
    destruct esc; [|apply join_nil_head in H; discriminate H].
    destruct gen as [[|]|]; [apply join_nil_head in H; discriminate H
                            |apply join_nil_head in H; discriminate H|].
    destruct c; [|apply join_nil_head in H; discriminate H].
    destruct ec; [|apply join_nil_head in H; discriminate H].
    destruct u as [[|]|]; [apply join_nil_head in H; discriminate H
                          |apply join_nil_head in H; discriminate H|].
    destruct p; [|apply join_nil_head in H; discriminate H].
    destruct ep; [|apply join_nil_head in H; discriminate H].
    destruct s; [reflexivity|]. discriminate H.
  - intros H. apply inactive_default in H. subst f. reflexivity.
Qed.

(** X13: the serializer yields the empty string exactly when no filter is
    active, so a submitted state leaves a query in the URL exactly when it
    has an active filter. *)
Theorem empty_query_iff_inactive (f : FilterState) :
  filtersToQueryString f = [] <-> hasActiveFilters f = false.
Proof. exact (empty_query_inactive f). Qed.

(** ** The removal of one filter *)

Lemma without_absent v l : ~ In v (without v l).
Proof.
  unfold without. intros H. apply filter_In in H as [_ H].
  now rewrite str_eqb_refl in H.
Qed.

Lemma without_twice v l : without v (without v l) = without v l.
Proof.
  unfold without. induction l as [|x l IH]; [reflexivity|].
  cbn [filter]. destruct (negb (str_eqb x v)) eqn:E; [|exact IH].
  cbn [filter]. now rewrite E, IH.
Qed.

(** X14: removing one filter with [removeFilter] touches one field only: a
    sequence loses every occurrence of the value and keeps its other values
    in their order, a tri-state or the search is cleared, and every other
    field is unchanged; removing the same filter again changes nothing. *)
Theorem removeFilter_removes_one_filter
    (f : FilterState) (type : BadgeType) (value : jsstring) (negated : bool) :
  let fld := removal_field type negated in
  let g := removeFilter f type value negated in
  (forall other, other <> fld -> field_same other f g)
  /\ field_values fld g = without value (field_values fld f)
  /\ ~ In value (field_values fld g)
  /\ (type = BSearch -> search g = [])
  /\ (type = BGenerator -> generator g = None)
  /\ (type = BUsed -> used g = None)
  /\ removeFilter g type value negated = g.
Proof.
  cbv zeta. destruct f as [s gr eg sc esc gen c ec u p ep].
  destruct type, negated;
    cbn [removeFilter removal_field field_values set_search set_groups
         set_excludeGroups set_scalers set_excludeScalers set_generator
         set_creators set_excludeCreators set_used set_pipelines
         set_excludePipelines search groups excludeGroups scalers
         excludeScalers generator creators excludeCreators used pipelines
         excludePipelines];
    (split; [intros other Ho; destruct other; try reflexivity; congruence|]);
    (split; [reflexivity|]);
    (split; [first [apply without_absent | intros []]|]);
    (split; [intros E; first [discriminate E | reflexivity]|]);
    (split; [intros E; first [discriminate E | reflexivity]|]);
    (split; [intros E; first [discriminate E | reflexivity]|]);
    rewrite ?without_twice; reflexivity.
Qed.

(** ** The round trip for a logged-in user *)

Lemma apply_creator_user cu g v :
  expand_me cu v = v ->
  applyToken cu g (item_token (mkItem false (lit "creator") v))
  = set_creators g (creators g ++ [v]).
Proof.
  intros H. unfold applyToken, item_token, push.
  cbn [key value negated raw it_neg it_key it_value]. eval_lits.
  fold (expand_me cu v). now rewrite H.
Qed.

Lemma apply_excludeCreator_user cu g v :
  expand_me cu v = v ->
  applyToken cu g (item_token (mkItem true (lit "creator") v))
  = set_excludeCreators g (excludeCreators g ++ [v]).
Proof.
  intros H. unfold applyToken, item_token, push.
  cbn [key value negated raw it_neg it_key it_value]. eval_lits.
  fold (expand_me cu v). now rewrite H.
Qed.

Lemma fold_creators_user cu : forall vs g,
  map (expand_me cu) vs = vs ->
  fold_left (applyToken cu) (map item_token (map (mkItem false (lit "creator")) vs)) g
  = set_creators g (creators g ++ vs).
Proof.
  intros vs. induction vs as [|v vs IH]; intros g H; cbn [map fold_left].
  - destruct g; cbn. now rewrite app_nil_r.
  - cbn [map] in H. injection H as Hv Hvs.
    rewrite (@apply_creator_user cu g v Hv), (IH _ Hvs).
    destruct g; cbn. now rewrite <- app_assoc.
Qed.

Lemma fold_excludeCreators_user cu : forall vs g,
  map (expand_me cu) vs = vs ->
  fold_left (applyToken cu) (map item_token (map (mkItem true (lit "creator")) vs)) g
  = set_excludeCreators g (excludeCreators g ++ vs).
Proof.
  intros vs. induction vs as [|v vs IH]; intros g H; cbn [map fold_left].
  - destruct g; cbn. now rewrite app_nil_r.
  - cbn [map] in H. injection H as Hv Hvs.
    rewrite (@apply_excludeCreator_user cu g v Hv), (IH _ Hvs).
    destruct g; cbn. now rewrite <- app_assoc.
Qed.

Lemma tokensToFilters_items_user f cu :
  map (expand_me cu) (creators f) = creators f ->
  map (expand_me cu) (excludeCreators f) = excludeCreators f ->
  tokensToFilters (map item_token (items f)) (search f) cu = f.
Proof.
  intros Hc Hec. unfold tokensToFilters, items.
  rewrite !map_app, !fold_left_app.
  rewrite fold_groups, fold_excludeGroups, fold_scalers, fold_excludeScalers,
    fold_generator_items.
  rewrite fold_creators_user.
  2:{ destruct (generator f); exact Hc. }
  rewrite fold_excludeCreators_user.
  2:{ destruct (generator f); exact Hec. }
  rewrite fold_used_items, fold_pipelines, fold_excludePipelines.
  destruct f as [s g eg sc esc gen c ec u p ep].
  destruct gen as [gen|], u as [u|]; reflexivity.
Qed.

Lemma serialize_then_parse_user f currentUser :
  canonical f = true ->
  normalize_text (search f) = search f ->
  map (expand_me currentUser) (creators f) = creators f ->
  map (expand_me currentUser) (excludeCreators f) = excludeCreators f ->
  parseQueryString (filtersToQueryString f) currentUser = Some f.
Proof.
  intros Hc Hn Hcr Hecr.
  pose proof (canonical_items f Hc) as Hitems.
  unfold canonical in Hc.
  apply andb_true_iff in Hc as [Hc Hsrch].
  apply andb_true_iff in Hc as [Hc _]. apply andb_true_iff in Hc as [Hc _].
  apply andb_true_iff in Hc as [Hc _]. apply andb_true_iff in Hc as [Hc _].
  apply andb_true_iff in Hc as [Hc Hes]. apply andb_true_iff in Hc as [_ Hs].
  rewrite (serializer_items f Hs Hes).
  destruct (scans_items (items f) (search f) Hitems Hsrch) as (ms & n & Hscan & Htok).
  rewrite (scans_parseQueryString currentUser Hscan).
  now rewrite Htok, normalize_spaces, Hn, tokensToFilters_items_user.
Qed.

(** X15: a canonical state with normalized free text survives the trip through
    the query string for any current user, as long as no creator of the
    state is changed by the expansion of [@me] (no creator is [@me], or no
    user is logged in): parsing its serialization gives the state back. *)
Theorem serialize_parse_roundtrip f currentUser :
  canonical f = true ->
  normalize_text (search f) = search f ->
  map (expand_me currentUser) (creators f) = creators f ->
  map (expand_me currentUser) (excludeCreators f) = excludeCreators f ->
  parseQueryString (filtersToQueryString f) currentUser = Some f.
Proof. exact (@serialize_then_parse_user f currentUser). Qed.

Lemma serialize_parse_roundtrip_witness :
  let f := mkFilterState (lit "free text") [lit "alpha"; lit "my group"] []
             [lit "K8s"] [] (Some false) [lit "bob"] [lit "Jane Doe"]
             (Some false) [lit "p1"] [] in
  parseQueryString (filtersToQueryString f) (lit "alice") = Some f.
Proof.
  intros f. apply (@serialize_parse_roundtrip f (lit "alice")); reflexivity.
Defined.

(** ** The token under the cursor *)

Lemma slice_prefix {A} (l : list A) (c : Z) :
  slice l 0 c = firstn (clamp_index (length l) c) l.
Proof.
  unfold slice. change (clamp_index (length l) 0) with (Nat.min 0 (length l)).
  cbn [Nat.min skipn]. now rewrite Nat.sub_0_r.
Qed.

(** The text before and the text after the cursor make up the input, for
    any cursor position. *)
Lemma cursor_split (input : jsstring) (c : Z) :
  slice input 0 c ++ slice_from input c = input.
Proof. rewrite slice_prefix. unfold slice_from. apply firstn_skipn. Qed.

Lemma clamp_index_nat len n : n <= len -> clamp_index len (Z.of_nat n) = n.
Proof.
  intros H. unfold clamp_index.
  destruct (Z.of_nat n <? 0)%Z eqn:E; [lia|]. lia.
Qed.

Lemma lastIndexOf_spec s c :
  (lastIndexOf s c = (-1)%Z /\ forallb (fun x => negb (Ascii.eqb x c)) s = true)
  \/ (exists a b, s = a ++ c :: b
        /\ forallb (fun x => negb (Ascii.eqb x c)) b = true
        /\ lastIndexOf s c = Z.of_nat (length a)).
Proof.
  induction s as [|x s IH].
  - left. split; reflexivity.
  - cbn [lastIndexOf]. destruct IH as [[Hi Hs] | (a & b & -> & Hb & Hi)].
    + rewrite Hi. cbn [Z.leb Z.compare]. destruct (Ascii.eqb x c) eqn:E.
      * right. apply Ascii.eqb_eq in E. subst x. exists [], s. now split.
      * left. split; [reflexivity|]. cbn [forallb]. now rewrite E, Hs.
    + right. rewrite Hi. exists (x :: a), b.
      assert ((0 <=? Z.of_nat (length a))%Z = true) as -> by (apply Z.leb_le; lia).
      split; [reflexivity|]. split; [exact Hb|]. cbn [length]. lia.
Qed.

Lemma indexOf_spec s c :
  (indexOf s c = (-1)%Z /\ forallb (fun x => negb (Ascii.eqb x c)) s = true)
  \/ (exists a b, s = a ++ c :: b
        /\ forallb (fun x => negb (Ascii.eqb x c)) a = true
        /\ indexOf s c = Z.of_nat (length a)).
Proof.
  induction s as [|x s IH].
  - left. split; reflexivity.
  - cbn [indexOf]. destruct (Ascii.eqb x c) eqn:E.
    + right. apply Ascii.eqb_eq in E. subst x. exists [], s. now split.
    + destruct IH as [[Hi Hs] | (a & b & -> & Ha & Hi)].
      * left. rewrite Hi. split; [reflexivity|]. cbn [forallb]. now rewrite E, Hs.
      * right. rewrite Hi. exists (x :: a), b.
        assert ((Z.of_nat (length a) <? 0)%Z = false) as -> by (apply Z.ltb_ge; lia).
        split; [reflexivity|]. split; [cbn [forallb]; now rewrite E, Ha|].
        cbn [length]. lia.
Qed.

(** The word under the cursor: the text before the cursor splits at its
    last space. *)
Lemma current_word_split (t : jsstring) :
  exists before word,
    t = before ++ word
    /\ forallb (fun x => negb (Ascii.eqb x space)) word = true
    /\ (before = [] \/ exists b', before = b' ++ [space])
    /\ slice t 0 (lastIndexOf t space + 1) = before
    /\ slice_from t (lastIndexOf t space + 1) = word.
Proof.
  destruct (lastIndexOf_spec t space) as [[Hi Hs] | (a & b & -> & Hb & Hi)].
  - exists [], t. rewrite Hi. split; [reflexivity|]. split; [exact Hs|].
    split; [now left|]. split; [|reflexivity].
    rewrite slice_prefix. reflexivity.
  - exists (a ++ [space]), b. rewrite Hi.
    assert (Hc : clamp_index (length (a ++ space :: b)) (Z.of_nat (length a) + 1)
                 = length (a ++ [space])).
    { replace (Z.of_nat (length a) + 1)%Z with (Z.of_nat (length (a ++ [space])))
        by (rewrite length_app; cbn; lia).
      apply clamp_index_nat. rewrite !length_app. cbn. lia. }
    split; [now rewrite <- app_assoc|]. split; [exact Hb|].
    split; [right; now exists a|].
    replace (a ++ space :: b) with ((a ++ [space]) ++ b) in *
      by now rewrite <- app_assoc.
    split.
    + rewrite slice_prefix, Hc. rewrite firstn_app, Nat.sub_diag, firstn_all.
      cbn. apply app_nil_r.
    + unfold slice_from. rewrite Hc. rewrite skipn_app, Nat.sub_diag, skipn_all.
      reflexivity.
Qed.

Lemma slice_from_one c (w : jsstring) : slice_from (c :: w) 1 = w.
Proof.
  unfold slice_from, clamp_index. cbn [Z.ltb Z.compare length].
  replace (Nat.min (Z.to_nat 1) (S (length w))) with 1 by lia. reflexivity.
Qed.

(** The context read from the word under the cursor: the word is the dash
    if any, and then either a partial key without colon, or a key as typed,
    a colon and the partial value. *)
Lemma word_context (input : jsstring) (cursorPos : Z) :
  let t := slice input 0 cursorPos in
  let word := slice_from t (lastIndexOf t space + 1) in
  let ctx := getCurrentToken input cursorPos in
  (isKey ctx = true /\ ctx_key ctx = None
   /\ word = neg_prefix (isNegated ctx) ++ partial ctx
   /\ forallb (fun x => negb (Ascii.eqb x colon)) (partial ctx) = true)
  \/ (isKey ctx = false
      /\ exists k, ctx_key ctx = Some (toLowerCase k)
           /\ word = neg_prefix (isNegated ctx) ++ k ++ colon :: partial ctx
           /\ forallb (fun x => negb (Ascii.eqb x colon)) k = true).
Proof.
  cbv zeta. unfold getCurrentToken. cbv zeta.
  set (word := slice_from (slice input 0 cursorPos) _).
  set (wwn := if startsWith word [dash] then slice_from word 1 else word).
  assert (Hw : word = neg_prefix (startsWith word [dash]) ++ wwn).
  { subst wwn. destruct word as [|c w]; [reflexivity|].
    rewrite (@startsWith_head_char dash c w).
    destruct (Ascii.eqb dash c) eqn:E; [|reflexivity].
    apply Ascii.eqb_eq in E. subst c. now rewrite slice_from_one. }
  destruct (indexOf_spec wwn colon) as [[Hi Hs] | (a & b & Hab & Ha & Hi)].
  - left. rewrite Hi. cbn [Z.eqb negb isKey ctx_key isNegated partial].
    repeat split; assumption.
  - right. rewrite Hi.
    assert (E : (Z.of_nat (length a) =? -1)%Z = false) by (apply Z.eqb_neq; lia).
    rewrite E. cbn [negb isKey ctx_key isNegated partial].
    split; [reflexivity|]. exists a.
    assert (H1 : slice wwn 0 (Z.of_nat (length a)) = a).
    { rewrite slice_prefix, Hab, clamp_index_nat by (rewrite length_app; lia).
      rewrite firstn_app, Nat.sub_diag, firstn_all. cbn. apply app_nil_r. }
    assert (H2 : slice_from wwn (Z.of_nat (length a) + 1) = b).
    { unfold slice_from. rewrite Hab.
      replace (Z.of_nat (length a) + 1)%Z with (Z.of_nat (length (a ++ [colon])))
        by (rewrite length_app; cbn; lia).
      rewrite clamp_index_nat by (rewrite !length_app; cbn; lia).
      replace (a ++ colon :: b) with ((a ++ [colon]) ++ b)
        by now rewrite <- app_assoc.
      now rewrite skipn_app, Nat.sub_diag, skipn_all. }
    rewrite H1, H2. split; [reflexivity|]. split; [|exact Ha].
    rewrite Hw at 1. now rewrite Hab.
Qed.

(** X16: accepting a suggestion replaces the word under the cursor and
    nothing else.  With [n] the cursor position clamped to the input (a
    negative position counts from the end), the text before the cursor, the
    first [n] characters, splits in one way into [before], empty or ending
    with a space, and a [word] without space; the result is [before], the
    suggestion (and a space after a value) and the text from the cursor on,
    the input without its first [n] characters, without its leading
    whitespace.  The word is what [getCurrentToken] reports: the dash if any,
    then a partial key, or a key, a colon and a partial value. *)
Theorem suggestion_replaces_current_word
    (input : jsstring) (cursorPos : Z) (suggestion : Suggestion) :
  let ctx := getCurrentToken input cursorPos in
  let n := clamp_index (length input) cursorPos in
  ((0 <= cursorPos <= Z.of_nat (length input))%Z -> n = Z.to_nat cursorPos)
  /\ exists before word,
       firstn n input = before ++ word
       /\ forallb (fun x => negb (Ascii.eqb x space)) word = true
       /\ (before = [] \/ exists b', before = b' ++ [space])
       /\ applySuggestion input cursorPos suggestion
          = before ++ sg_value suggestion
            ++ (match sg_type suggestion with
                | ValueSuggestion => [space]
                | KeySuggestion => []
                end)
            ++ trimStart (skipn n input)
       /\ ((isKey ctx = true
            /\ word = neg_prefix (isNegated ctx) ++ partial ctx
            /\ forallb (fun x => negb (Ascii.eqb x colon)) (partial ctx) = true)
           \/ (isKey ctx = false
               /\ exists k, ctx_key ctx = Some (toLowerCase k)
                    /\ word = neg_prefix (isNegated ctx) ++ k ++ colon :: partial ctx
                    /\ forallb (fun x => negb (Ascii.eqb x colon)) k = true)).
Proof.
  cbv zeta. split.
  { intros Hc. unfold clamp_index.
    destruct (cursorPos <? 0)%Z eqn:E; [lia|]. lia. }
  destruct (current_word_split (slice input 0 cursorPos))
    as (before & word & Ht & Hns & Hb & Hbefore & Hword).
  exists before, word.
  split; [|split; [exact Hns|split; [exact Hb|split]]].
  - rewrite <- Ht. symmetry. apply slice_prefix.
  - unfold applySuggestion. cbv zeta. now rewrite Hbefore.
  - pose proof (word_context input cursorPos) as Hctx. cbv zeta in Hctx.
    rewrite Hword in Hctx.
    destruct Hctx as [(H1 & _ & H2 & H3) | (H1 & k & H2 & H3 & H4)].
    + left. repeat split; assumption.
    + right. split; [exact H1|]. exists k. repeat split; assumption.
Qed.

Lemma lastIndexOf_absent w c :
  forallb (fun x => negb (Ascii.eqb x c)) w = true -> lastIndexOf w c = (-1)%Z.
Proof.
  induction w as [|x w IH]; [reflexivity|]. cbn [forallb lastIndexOf].
  intros H. apply andb_true_iff in H as [Hx Hw]. rewrite (IH Hw).
  apply negb_true_iff in Hx. now rewrite Hx.
Qed.

Lemma lastIndexOf_app_clean b w c :
  forallb (fun x => negb (Ascii.eqb x c)) w = true ->
  lastIndexOf (b ++ w) c = lastIndexOf b c.
Proof.
  intros Hw. induction b as [|x b IH].
  - cbn [app]. now rewrite lastIndexOf_absent.
  - cbn [app lastIndexOf]. now rewrite IH.
Qed.

Lemma lastIndexOf_snoc b c : lastIndexOf (b ++ [c]) c = Z.of_nat (length b).
Proof.
  induction b as [|x b IH].
  - cbn. now rewrite Ascii.eqb_refl.
  - cbn [app lastIndexOf]. rewrite IH.
    assert ((0 <=? Z.of_nat (length b))%Z = true) as -> by (apply Z.leb_le; lia).
    cbn [length]. lia.
Qed.

(** With the cursor at the end, the context depends on the last word only. *)
Lemma getCurrentToken_last_word before w :
  (before = [] \/ exists b', before = b' ++ [space]) ->
  forallb (fun x => negb (Ascii.eqb x space)) w = true ->
  getCurrentToken (before ++ w) (Z.of_nat (length (before ++ w)))
  = getCurrentToken w (Z.of_nat (length w)).
Proof.
  intros Hb Hw. unfold getCurrentToken. cbv zeta.
  rewrite (@slice_all _ (before ++ w) (Z.of_nat (length (before ++ w)))) by lia.
  rewrite (@slice_all _ w (Z.of_nat (length w))) by lia.
  assert (Hr : slice_from w (lastIndexOf w space + 1) = w).
  { now rewrite lastIndexOf_absent. }
  assert (Hl : slice_from (before ++ w) (lastIndexOf (before ++ w) space + 1) = w).
  { rewrite lastIndexOf_app_clean by assumption.
    destruct Hb as [-> | [b' ->]]; [reflexivity|].
    rewrite lastIndexOf_snoc. unfold slice_from.
    replace (Z.of_nat (length b') + 1)%Z with (Z.of_nat (length (b' ++ [space])))
      by (rewrite length_app; cbn; lia).
    rewrite clamp_index_nat by (rewrite !length_app; lia).
    now rewrite skipn_app, Nat.sub_diag, skipn_all. }
  now rewrite Hr, Hl.
Qed.

(** X17: accepting a key suggestion at the end of the input leaves the engine
    in value mode for that key: the token under the cursor then has the
    suggested key, the typed negation and an empty partial value. *)
Theorem key_suggestion_opens_value_mode (input k : jsstring) (neg : bool) :
  In k FILTER_KEYS ->
  let suggestion :=
    mkSuggestion KeySuggestion None (neg_prefix neg ++ k ++ [colon])
      (neg_prefix neg ++ k ++ [colon]) in
  let input' := applySuggestion input (Z.of_nat (length input)) suggestion in
  getCurrentToken input' (Z.of_nat (length input'))
  = mkContext [] false (Some k) neg.
Proof.
  intros Hk. cbv zeta.
  destruct (current_word_split (slice input 0 (Z.of_nat (length input))))
    as (before & word & Ht & Hns & Hb & Hbefore & Hword).
  assert (Happ : applySuggestion input (Z.of_nat (length input))
                   (mkSuggestion KeySuggestion None (neg_prefix neg ++ k ++ [colon])
                      (neg_prefix neg ++ k ++ [colon]))
                 = before ++ (neg_prefix neg ++ k ++ [colon])).
  { unfold applySuggestion. cbv zeta. rewrite Hbefore. cbn [sg_value sg_type].
    unfold slice_from. rewrite clamp_index_nat, skipn_all by lia.
    cbn [trimStart app]. now rewrite !app_nil_r. }
  rewrite Happ.
  unfold FILTER_KEYS in Hk. cbn [In] in Hk.
  destruct Hk as [<- | [<- | [<- | [<- | [<- | []]]]]]; destruct neg;
    (rewrite getCurrentToken_last_word; [reflexivity | exact Hb | reflexivity]).
Qed.

Lemma key_suggestion_opens_value_mode_witness :
  let suggestion :=
    mkSuggestion KeySuggestion None (neg_prefix true ++ lit "group" ++ [colon])
      (neg_prefix true ++ lit "group" ++ [colon]) in
  let input' :=
    applySuggestion (lit "is:used -gr") (Z.of_nat (length (lit "is:used -gr")))
      suggestion in
  getCurrentToken input' (Z.of_nat (length input'))
  = mkContext [] false (Some (lit "group")) true.
Proof.
  apply (@key_suggestion_opens_value_mode (lit "is:used -gr") (lit "group") true).
  left. reflexivity.
Defined.

(** ** Value suggestions *)

Lemma known_value_closed context k quoting known acc :
  known_value_suggestions context k quoting known acc
  = acc ++ map (fun v =>
                  mkSuggestion ValueSuggestion (Some k)
                    (neg_prefix (isNegated context) ++ k ++ colon ::
                       (if quoting then quote_if_space v else v)) v)
             (filter (fun v =>
                        includes (toLowerCase v)
                          (strip_leading_quote (toLowerCase (partial context)))
                        || str_eqb (strip_leading_quote (toLowerCase (partial context))) [])
                known).
Proof. unfold known_value_suggestions. cbv zeta. apply fold_push_if. Qed.

Lemma In_slice {A} (x : A) l from to : In x (slice l from to) -> In x l.
Proof.
  unfold slice. intros H.
  set (a := clamp_index (length l) from) in *.
  set (n := clamp_index (length l) to - a) in *.
  rewrite <- (firstn_skipn a l). apply in_or_app. right.
  rewrite <- (firstn_skipn n (skipn a l)). apply in_or_app. now left.
Qed.

Lemma includes_empty s : includes s [] = true.
Proof. destruct s; reflexivity. Qed.

(** A rendered item followed by a space is read back as its one token,
    with no free text. *)
Lemma accepted_item_parses it cu :
  item_ok it = true ->
  parseQueryString (render it ++ [space]) cu
  = Some (tokensToFilters [item_token it] [] cu).
Proof.
  intros Hok.
  destruct (@render_recognized it [space] Hok eq_refl) as (m & Hm & Ht).
  apply regex_exec_here in Hm.
  assert (Hs : scans [space] [] [space]) by (apply scans_end; reflexivity).
  pose proof (@scans_step _ _ _ _ _ _ Hm Hs) as Hall.
  rewrite (scans_parseQueryString cu Hall). cbn [map]. now rewrite Ht.
Qed.

(** X18: after [group:], every suggestion names a known group whose lower-cased
    name includes the lower-cased partial value (an opening quote aside);
    its text is the token of that group, quoted if the name holds a space,
    with the negation typed; and accepting it on an empty input gives, once
    parsed, the state with that one group included or excluded. *)
Theorem group_suggestions_select_known_groups
    availableGroups availableScalers availableCreators availablePipelines
    currentUser input cursorPos suggestion :
  let ctx := getCurrentToken input cursorPos in
  isKey ctx = false ->
  ctx_key ctx = Some (lit "group") ->
  In suggestion
    (getSuggestions availableGroups availableScalers availableCreators
       availablePipelines currentUser input cursorPos) ->
  exists v,
    In v availableGroups
    /\ includes (toLowerCase v)
         (strip_leading_quote (toLowerCase (partial ctx))) = true
    /\ suggestion
       = mkSuggestion ValueSuggestion (Some (lit "group"))
           (render (mkItem (isNegated ctx) (lit "group") v)) v
    /\ (value_ok v = true ->
        forall user,
          parseQueryString (applySuggestion [] 0 suggestion) user
          = Some (if isNegated ctx
                  then set_excludeGroups DEFAULT_FILTER_STATE [v]
                  else set_groups DEFAULT_FILTER_STATE [v])).
Proof.
  cbv zeta. intros HK Hk Hin. apply In_slice in Hin.
  rewrite HK, Hk in Hin. cbn [truthy lit list_ascii_of_string] in Hin.
  change (truthy (lit "group")) with true in Hin. cbv iota in Hin.
  unfold value_suggestions in Hin. rewrite str_eqb_refl in Hin.
  rewrite known_value_closed in Hin. cbn [app] in Hin.
  apply in_map_iff in Hin as (v & <- & Hv).
  apply filter_In in Hv as [Hv Hinc].
  exists v. split; [exact Hv|]. split; [|split; [reflexivity|]].
  - apply orb_true_iff in Hinc as [H | H]; [exact H|].
    apply str_eqb_eq in H. rewrite H. apply includes_empty.
  - intros Hok user.
    change (applySuggestion [] 0
              (mkSuggestion ValueSuggestion (Some (lit "group"))
                 (neg_prefix (isNegated (getCurrentToken input cursorPos))
                  ++ lit "group" ++ colon :: quote_if_space v) v))
      with (render (mkItem (isNegated (getCurrentToken input cursorPos))
                      (lit "group") v) ++ [space]).
    rewrite accepted_item_parses.
    + destruct (isNegated (getCurrentToken input cursorPos)); reflexivity.
    + unfold item_ok. cbn [it_key it_value]. now rewrite Hok.
Qed.

Lemma group_suggestions_select_known_groups_witness :
  exists v,
    In v [lit "alpha"; lit "my group"]
    /\ includes (toLowerCase v)
         (strip_leading_quote
            (toLowerCase (partial (getCurrentToken (lit "-group:MY") 9)))) = true
    /\ mkSuggestion ValueSuggestion (Some (lit "group"))
         (lit "-group:" ++ dquote :: lit "my group" ++ [dquote]) (lit "my group")
       = mkSuggestion ValueSuggestion (Some (lit "group"))
           (render (mkItem (isNegated (getCurrentToken (lit "-group:MY") 9))
                      (lit "group") v)) v
    /\ (value_ok v = true ->
        forall user,
          parseQueryString
            (applySuggestion [] 0
               (mkSuggestion ValueSuggestion (Some (lit "group"))
                  (lit "-group:" ++ dquote :: lit "my group" ++ [dquote])
                  (lit "my group"))) user
          = Some (if isNegated (getCurrentToken (lit "-group:MY") 9)
                  then set_excludeGroups DEFAULT_FILTER_STATE [v]
                  else set_groups DEFAULT_FILTER_STATE [v])).
Proof.
  apply (@group_suggestions_select_known_groups
           [lit "alpha"; lit "my group"] [] [] [] [] (lit "-group:MY") 9
           (mkSuggestion ValueSuggestion (Some (lit "group"))
              (lit "-group:" ++ dquote :: lit "my group" ++ [dquote])
              (lit "my group")));
    [reflexivity | reflexivity | left; reflexivity].
Defined.

(** ** Filtering the images *)

Lemma array_includes_In l x : array_includes l x = true <-> In x l.
Proof.
  unfold array_includes. rewrite existsb_exists. split.
  - intros (y & Hy & E). apply str_eqb_eq in E. now subst y.
  - intros H. exists x. split; [exact H | apply str_eqb_refl].
Qed.

Lemma array_includes_not_In l x : array_includes l x = false <-> ~ In x l.
Proof.
  rewrite <- array_includes_In. destruct (array_includes l x); split; congruence.
Qed.

Lemma nonempty_iff {A} (l : list A) : nonempty l = true <-> l <> [].
Proof. destruct l; cbn; split; congruence. Qed.

Lemma include_test l x :
  nonempty l && negb (array_includes l x) = false <-> (l <> [] -> In x l).
Proof.
  rewrite <- array_includes_In. destruct l as [|y l]; cbn [nonempty andb].
  - split; [intros _ H; congruence | reflexivity].
  - destruct (array_includes (y :: l) x); cbn [negb].
    + split; auto.
    + split; [discriminate|]. intros H. symmetry. apply H. discriminate.
Qed.

Lemma exclude_test l x :
  nonempty l && array_includes l x = false <-> ~ In x l.
Proof.
  rewrite <- array_includes_not_In. destruct l as [|y l]; cbn [nonempty andb].
  - split; reflexivity.
  - reflexivity.
Qed.

Lemma some_pipeline_test ps ub :
  nonempty ps && negb (existsb (fun p => array_includes ub p) ps) = false
  <-> (ps <> [] -> exists p, In p ps /\ In p ub).
Proof.
  destruct ps as [|q ps]; cbn [nonempty andb].
  - split; [congruence | reflexivity].
  - rewrite negb_false_iff, existsb_exists. split.
    + intros (p & Hp & Hi) _. exists p. split; [exact Hp|].
      now apply array_includes_In.
    + intros H. destruct (H ltac:(discriminate)) as (p & Hp & Hi).
      exists p. split; [exact Hp|]. now apply array_includes_In.
Qed.

Lemma no_pipeline_test ps ub :
  nonempty ps && existsb (fun p => array_includes ub p) ps = false
  <-> (forall p, In p ps -> ~ In p ub).
Proof.
  destruct ps as [|q ps]; cbn [nonempty andb].
  - split; [intros _ p [] | reflexivity].
  - split.
    + intros H p Hp Hi.
      assert (E : existsb (fun p => array_includes ub p) (q :: ps) = true).
      { apply existsb_exists. exists p. split; [exact Hp|].
        now apply array_includes_In. }
      congruence.
    + intros H. destruct (existsb _ (q :: ps)) eqn:E; [|reflexivity].
      apply existsb_exists in E as (p & Hp & Hi).
      apply array_includes_In in Hi. now destruct (H p Hp).
Qed.

(** X19: an image is kept by the filter exactly when it meets the condition of
    every field: the search text occurs in its name or description, its
    group, scaler and creator are among the included ones (if any) and not
    among the excluded ones, its generator flag is the one asked for, it is
    used or orphan as asked, it is used by one of the included pipelines (if
    any) and by none of the excluded ones. *)
Theorem image_kept_iff_all_conditions (f : FilterState) (image : Image) :
  imageMatches f image = true <-> image_passes f image.
Proof.
  unfold imageMatches, image_passes.
  rewrite <- !include_test, <- !exclude_test, <- some_pipeline_test,
    <- no_pipeline_test.
  set (c1 := truthy (search f) && _ && _).
  set (c2 := nonempty (groups f) && _).
  set (c3 := nonempty (excludeGroups f) && _).
  set (c4 := nonempty (scalers f) && _).
  set (c5 := nonempty (excludeScalers f) && _).
  set (c7 := nonempty (creators f) && _).
  set (c8 := nonempty (excludeCreators f) && _).
  set (c10 := nonempty (pipelines f) && _).
  set (c11 := nonempty (excludePipelines f) && _).
  assert (H1 : c1 = false <->
               (search f <> [] ->
                text_matches (img_name image) (toLowerCase (search f)) = true
                \/ text_matches (img_description image) (toLowerCase (search f)) = true)).
  { subst c1. destruct (search f) as [|a s]; cbn [truthy andb].
    - split; [congruence | reflexivity].
    - destruct (text_matches (img_name image) _),
        (text_matches (img_description image) _); cbn; split; auto;
        try congruence.
      intros H. destruct (H ltac:(discriminate)); discriminate. }
  assert (H6 : match generator f with
               | Some g => negb (Bool.eqb (img_generator image) g)
               | None => false
               end = false
               <-> (forall g, generator f = Some g -> img_generator image = g)).
  { destruct (generator f) as [g|].
    - rewrite negb_false_iff, Bool.eqb_true_iff. split.
      + intros H g' E. congruence.
      + intros H. now apply H.
    - split; [congruence | reflexivity]. }
  assert (H9 : match used f with
               | Some u =>
                   u && negb (nonempty (usedByPipelines image))
                   || negb u && nonempty (usedByPipelines image)
               | None => false
               end = false
               <-> ((used f = Some true -> usedByPipelines image <> [])
                    /\ (used f = Some false -> usedByPipelines image = []))).
  { destruct (used f) as [[|]|]; destruct (usedByPipelines image);
      cbn; split; intros H; try reflexivity; try discriminate;
      try (split; congruence).
    - destruct H as [H _]. now destruct (H eq_refl).
    - destruct H as [_ H]. discriminate (H eq_refl). }
  rewrite <- H1, <- H6, <- H9.
  destruct c1; [split; [discriminate | intros [H _]; discriminate H]|].
  destruct c2; [split; [discriminate | intros (_ & H & _); discriminate H]|].
  destruct c3; [split; [discriminate | intros (_ & _ & H & _); discriminate H]|].
  destruct c4; [split; [discriminate | intros (_ & _ & _ & H & _); discriminate H]|].
  destruct c5;
    [split; [discriminate | intros (_ & _ & _ & _ & H & _); discriminate H]|].
  destruct (match generator f with Some _ => _ | None => _ end);
    [split; [discriminate | intros (_ & _ & _ & _ & _ & H & _); discriminate H]|].
  destruct c7;
    [split; [discriminate | intros (_ & _ & _ & _ & _ & _ & H & _); discriminate H]|].
  destruct c8;
    [split; [discriminate
            | intros (_ & _ & _ & _ & _ & _ & _ & H & _); discriminate H]|].
  destruct (match used f with Some _ => _ | None => _ end);
    [split; [discriminate
            | intros (_ & _ & _ & _ & _ & _ & _ & _ & H & _); discriminate H]|].
  destruct c10;
    [split; [discriminate
            | intros (_ & _ & _ & _ & _ & _ & _ & _ & _ & H & _); discriminate H]|].
  destruct c11;
    [split; [discriminate
            | intros (_ & _ & _ & _ & _ & _ & _ & _ & _ & _ & H); discriminate H]|].
  split; [intros _; repeat split; reflexivity | reflexivity].
Qed.

Lemma imageMatches_used f u image :
  imageMatches (set_used f (Some u)) image
  = imageMatches (set_used f None) image
    && Bool.eqb (nonempty (usedByPipelines image)) u.
Proof.
  unfold imageMatches.
  cbn [set_used search groups excludeGroups scalers excludeScalers generator
       creators excludeCreators used pipelines excludePipelines].
  destruct u, (nonempty (usedByPipelines image)); cbn [andb orb negb Bool.eqb];
    repeat match goal with
      | |- context [if ?c then false else _] => destruct c; [reflexivity|]
      end;
    reflexivity.
Qed.

(** X20: [is:used] and [is:orphan] split what the other filters keep: with
    [used] set, the images shown are those shown with [used] unset that are
    used by some pipeline, respectively by none, in the same order. *)
Theorem used_filter_splits_images (f : FilterState) (u : bool) (images : list Image) :
  filteredImages (set_used f (Some u)) images
  = filter (fun image => Bool.eqb (nonempty (usedByPipelines image)) u)
      (filteredImages (set_used f None) images).
Proof.
  unfold filteredImages. induction images as [|i images IH]; [reflexivity|].
  cbn [filter]. rewrite imageMatches_used.
  destruct (imageMatches (set_used f None) i); cbn [andb filter].
  - destruct (Bool.eqb _ u); now rewrite IH.
  - exact IH.
Qed.

(** X21: with no active filter every image is shown. *)
Theorem no_filter_shows_all_images (f : FilterState) (images : list Image) :
  hasActiveFilters f = false -> filteredImages f images = images.
Proof.
  intros H. apply inactive_default in H. subst f.
  unfold filteredImages. induction images as [|i images IH]; [reflexivity|].
  cbn [filter]. change (imageMatches DEFAULT_FILTER_STATE i) with true.
  cbv iota. now rewrite IH.
Qed.

Lemma no_filter_shows_all_images_witness :
  filteredImages DEFAULT_FILTER_STATE
    [mkImage (Some (lit "unpack")) None (lit "static") (lit "K8s") false
       (lit "alice") (Some [lit "p1"])]
  = [mkImage (Some (lit "unpack")) None (lit "static") (lit "K8s") false
       (lit "alice") (Some [lit "p1"])].
Proof.
  apply (@no_filter_shows_all_images DEFAULT_FILTER_STATE
           [mkImage (Some (lit "unpack")) None (lit "static") (lit "K8s") false
              (lit "alice") (Some [lit "p1"])]).
  reflexivity.
Defined.


(** ** Submitting and restoring *)

(** X22: submitting a state and loading the page again restores it: for a
    canonical state with normalized free text and no creator changed by the
    expansion of [@me], the query string [Enter] submits, stored in the URL
    by the page (no [q] at all for the empty state) and read back into the
    initial empty state, gives the submitted state. *)
Theorem submit_then_reload_restores f currentUser :
  canonical f = true ->
  normalize_text (search f) = search f ->
  map (expand_me currentUser) (creators f) = creators f ->
  map (expand_me currentUser) (excludeCreators f) = excludeCreators f ->
  filtersFromUrl (handleFilterSubmit (filtersToQueryString f)) currentUser
    DEFAULT_FILTER_STATE
  = Some f.
Proof.
  intros Hc Hn Hcr Hecr. unfold handleFilterSubmit, filtersFromUrl.
  destruct (filtersToQueryString f) as [|a q] eqn:E.
  - cbn [truthy]. f_equal. symmetry. apply inactive_default.
    now apply empty_query_inactive.
  - cbn [truthy]. rewrite <- E. now apply serialize_then_parse_user.
Qed.

Lemma submit_then_reload_restores_witness :
  let f := mkFilterState [] [lit "my group"] [] [lit "K8s"] [] None
             [lit "alice"] [] (Some true) [] [lit "p1"] in
  filtersFromUrl (handleFilterSubmit (filtersToQueryString f)) (lit "alice")
    DEFAULT_FILTER_STATE
  = Some f.
Proof.
  intros f. apply (@submit_then_reload_restores f (lit "alice")); reflexivity.
Defined.
